(** * TG_GPT: chat-log extraction, corpus statistics and reply post-processing

    A shallow embedding of the hand-written logic of the repository:

    - [dataset/prepare_training_dataset.py]: [clean_text],
      [process_chat_file], [create_training_dataset];
    - [core/generator.py]: [MessageGenerator.generate_response],
      [MessageGenerator.generate_multiple_responses], [interactive_mode],
      [batch_mode];
    - [dataset/train_model_locally.py]: [format_dataset].

    Python values are modelled as follows.
    - A [str] is the list of its Unicode code points ([list N]); [len] is
      [length], so a Cyrillic letter counts for one character as in Python.
    - A value produced by [json.load] is a [json] tree; a Python [dict] is a
      finite map ([gmap]) from keys to values.
    - An exception is a constructor of [exn]; code that may raise returns a
      [result], and [try ... except Exception] is a [match] on it.
      Interrupts ([KeyboardInterrupt], [SystemExit]) are not exceptions of
      the model.
    - [print] inside an [except] handler is recorded as an [event]; the
      informational prints and the log lines are left out.
    - The file system (reading the exports, writing the two output
      files), the Unicode tables of the runtime, the limit of [str] on the
      digits of an integer and the machine learning library are
      parameters. *)

From Stdlib Require Import ZArith NArith Ascii String.
From stdpp Require Import base option list gmap pretty.
From Equations Require Import Equations.

Set Default Proof Using "Type".
#[local] Set Warnings "-register-all".
Local Open Scope N_scope.

(** ** Python strings *)

Abbreviation pystr := (list N).

(** Source literals are written as UTF-8 byte strings; [utf8_decode] turns
    the bytes into code points. *)
Fixpoint utf8_decode (bs : list N) : pystr :=
  match bs with
  | [] => []
  | b :: bs1 =>
      if b <? 128 then b :: utf8_decode bs1
      else match bs1 with
           | [] => [b]
           | b1 :: bs2 =>
               if b <? 224
               then ((b - 192) * 64 + (b1 - 128)) :: utf8_decode bs2
               else match bs2 with
                    | [] => [b]
                    | b2 :: bs3 =>
                        if b <? 240
                        then ((b - 224) * 4096 + (b1 - 128) * 64 + (b2 - 128))
                               :: utf8_decode bs3
                        else match bs3 with
                             | [] => [b]
                             | b3 :: bs4 =>
                                 ((b - 240) * 262144 + (b1 - 128) * 4096
                                  + (b2 - 128) * 64 + (b3 - 128))
                                   :: utf8_decode bs4
                             end
                    end
           end
  end.

Definition u (s : string) : pystr :=
  utf8_decode (map N_of_ascii (list_ascii_of_string s)).

Definition SELF_MARKER : pystr := Eval cbv in u "Вы: ".
Definition INTERLOCUTOR_MARKER : pystr := Eval cbv in u "Собеседник: ".
Definition FALLBACK : pystr :=
  Eval cbv in u "Извините, не удалось сгенерировать ответ.".
Definition CHATS_FOLDER : pystr := Eval cbv in u "2025_08_12".

Definition SPACE : N := 32.
Definition SLASH : N := 47.

(** [str.isspace] on one character, which is also what the regular
    expression class [\s] matches on [str] patterns and what [str.strip]
    removes (CPython's [_PyUnicode_IsWhitespace]). *)
Definition isspace (c : N) : bool :=
  ((9 <=? c) && (c <=? 13)) || ((28 <=? c) && (c <=? 32))
  || (c =? 133) || (c =? 160) || (c =? 5760)
  || ((8192 <=? c) && (c <=? 8202))
  || (c =? 8232) || (c =? 8233) || (c =? 8239) || (c =? 8287)
  || (c =? 12288).

(** The literal characters of the class [[^\w\s.,!?\-:;()]]:
    [. , ! ? - : ; ( )]. *)
Definition ispunct (c : N) : bool :=
  (c =? 46) || (c =? 44) || (c =? 33) || (c =? 63) || (c =? 45)
  || (c =? 58) || (c =? 59) || (c =? 40) || (c =? 41).

Fixpoint drop_while (p : N → bool) (s : pystr) : pystr :=
  match s with
  | [] => []
  | c :: s' => if p c then drop_while p s' else s
  end.

(** [s.lstrip()], [s.rstrip()], [s.strip()]. *)
Definition lstrip (s : pystr) : pystr := drop_while isspace s.
Definition rstrip (s : pystr) : pystr :=
  reverse (drop_while isspace (reverse s)).
Definition strip (s : pystr) : pystr := rstrip (lstrip s).

(** [s.startswith(p)]. *)
Fixpoint startswith (s p : pystr) {struct p} : bool :=
  match p, s with
  | [], _ => true
  | _ :: _, [] => false
  | a :: p', b :: s' => (a =? b) && startswith s' p'
  end.

(** [p in s] for strings: some suffix of [s] starts with [p]. *)
Fixpoint contains (p s : pystr) : bool :=
  startswith s p ||
  match s with
  | [] => false
  | _ :: s' => contains p s'
  end.

(** ** JSON values and exceptions *)

(** What [json.load] returns.  A float is carried as its [repr], the only
    thing the program ever does with one is [str]. *)
Inductive json : Type :=
| JNull
| JBool (b : bool)
| JInt (z : Z)
| JFloat (repr : pystr)
| JStr (s : pystr)
| JList (l : list json)
| JDict (d : gmap pystr json).

Inductive exn : Type :=
| KeyError
| AttributeError
| TypeError
| RuntimeError
| ValueError
| IndexError
| OSError             (* a file cannot be opened, read or written *)
| JSONDecodeError     (* [json.load] failed *)
| UnicodeEncodeError  (* a string to write holds a lone surrogate *)
| InferenceError.     (* anything raised by the tokenizer or the model *)

Inductive result (A : Type) : Type :=
| Ok (a : A)
| Raise (e : exn).
Arguments Ok {A} a.
Arguments Raise {A} e.

(** [result] is a monad; [x ← r; k] runs [k] unless [r] raised. *)
#[global] Instance result_ret : MRet result := λ A a, Ok a.
#[global] Instance result_bind : MBind result := λ A B k r,
  match r with
  | Ok a => k a
  | Raise e => Raise e
  end.

(** A [for] loop whose body may raise. *)
Fixpoint foldM {S A} (body : S → A → result S) (st : S) (l : list A)
  : result S :=
  match l with
  | [] => Ok st
  | a :: l' => st' ← body st a; foldM body st' l'
  end.

(** A list comprehension whose element expression may raise. *)
Fixpoint comprehension {A B} (f : A → result B) (l : list A)
  : result (list B) :=
  match l with
  | [] => Ok []
  | a :: l' => b ← f a; bs ← comprehension f l'; Ok (b :: bs)
  end.

Definition TEXT : pystr := Eval cbv in u "text".
Definition TYPE : pystr := Eval cbv in u "type".
Definition FROM : pystr := Eval cbv in u "from".
Definition NAME : pystr := Eval cbv in u "name".
Definition MESSAGES : pystr := Eval cbv in u "messages".
Definition MESSAGE : pystr := Eval cbv in u "message".
Definition PERSONAL_CHAT : pystr := Eval cbv in u "personal_chat".
Definition HTTP : pystr := Eval cbv in u "http".
Definition UNKNOWN : pystr := Eval cbv in u "Unknown".
Definition ANDREY : pystr := Eval cbv in u "Andrey".

Section Program.

(** Three things of the Python runtime are parameters of the model:
    [str.isalnum] on one character (the Unicode database); [repr] of a list
    or dict, which is what [str] gives for them, and which raises when the
    [repr] of an element does; and [sys.get_int_max_str_digits()], the
    limit on the decimal digits of an integer that [str] converts ([4300]
    unless it was changed; [0] when there is no limit). *)
Variable isalnum : N → bool.
Variable repr_container : json → result pystr.
Variable int_max_str_digits : nat.

(** [\w] on [str] patterns: alphanumeric or underscore. *)
Definition isword (c : N) : bool := isalnum c || (c =? 95).

(** [str(z)] raises [ValueError] on an integer with more decimal digits
    than the limit, its sign apart: one whose absolute value reaches
    [10 ^ int_max_str_digits]. *)
Definition over_limit (z : Z) : bool :=
  bool_decide (0 < int_max_str_digits)%nat
  && bool_decide (10 ^ Z.of_nat int_max_str_digits ≤ Z.abs z)%Z.

(** [str(v)]. *)
Definition py_str (v : json) : result pystr :=
  match v with
  | JStr s => Ok s
  | JNull => Ok (u "None")
  | JBool true => Ok (u "True")
  | JBool false => Ok (u "False")
  | JInt z => if over_limit z then Raise ValueError else Ok (u (pretty z))
  | JFloat r => Ok r
  | JList _ | JDict _ => repr_container v
  end.

(** ** [clean_text] *)

(** [str(t['text']) if isinstance(t, dict) else str(t)] *)
Definition fragment_text (t : json) : result pystr :=
  match t with
  | JDict d =>
      match d !! TEXT with
      | Some v => py_str v
      | None => Raise KeyError
      end
  | _ => py_str t
  end.

(** [re.sub(r'[^\w\s.,!?\-:;()]', ' ', s)]: the pattern matches one
    character at a time. *)
Definition keep (c : N) : bool := isword c || isspace c || ispunct c.
Definition sub_special (s : pystr) : pystr :=
  map (λ c, if keep c then c else SPACE) s.

(** [re.sub(r'\s+', ' ', s)]: every maximal run of whitespace becomes one
    space.  [in_run] says that the previous character belonged to a run
    whose replacement has been written already. *)
Fixpoint sub_spaces_from (in_run : bool) (s : pystr) : pystr :=
  match s with
  | [] => []
  | c :: s' =>
      if isspace c
      then (if in_run then sub_spaces_from true s'
            else SPACE :: sub_spaces_from true s')
      else c :: sub_spaces_from false s'
  end.
Definition sub_spaces (s : pystr) : pystr := sub_spaces_from false s.

(** Lines 13-16, on the string [str(text)]. *)
Definition clean_str (s : pystr) : pystr :=
  strip (sub_spaces (sub_special s)).

Definition clean_text (text : json) : result pystr :=
  text' ← match text with
           | JList l =>
               parts ← comprehension fragment_text l;
               Ok (JStr (concat parts))
           | _ => Ok text
           end;
  s ← py_str text';
  Ok (clean_str s).

(** ** [process_chat_file] *)

(** One element of [conversations]. *)
Record conversation : Type := Conversation {
  context : list pystr;
  response : pystr;
  source_file : pystr;
  chat_name : json
}.

(** The loop state: [conversations] and [current_context]. *)
Record extractor : Type := Extractor {
  conversations : list conversation;
  current_context : list pystr
}.

(** [d.get(k)] and [d.get(k, v)] on a dict; Python's [None] is [JNull]. *)
Definition dict_get (d : gmap pystr json) (k : pystr) : json :=
  default JNull (d !! k).
Definition dict_get_default (d : gmap pystr json) (k : pystr) (v : json)
  : json :=
  default v (d !! k).

(** [v == s] where [s] is a [str]: only an equal string compares equal. *)
Definition eq_str (v : json) (s : pystr) : bool :=
  match v with
  | JStr t => bool_decide (t = s)
  | _ => false
  end.

(** The values [for x in v] goes through: a list gives its elements, a
    string its characters, a dict its keys; anything else is not iterable. *)
Definition py_iter (v : json) : result (list json) :=
  match v with
  | JList l => Ok l
  | JStr s => Ok (map (λ c, JStr [c]) s)
  | JDict d => Ok (map (λ kv, JStr kv.1) (map_to_list d))
  | _ => Raise TypeError
  end.

(** [os.path.basename] (POSIX): what follows the last slash. *)
Fixpoint basename_from (cur : pystr) (p : pystr) : pystr :=
  match p with
  | [] => reverse cur
  | c :: p' => if c =? SLASH then basename_from [] p'
               else basename_from (c :: cur) p'
  end.
Definition basename (p : pystr) : pystr := basename_from [] p.

(** [current_context.append(text)] followed by the capacity check
    [if len(current_context) > 3: current_context.pop(0)]. *)
Definition append_context (ctx : list pystr) (text : pystr) : list pystr :=
  let ctx := ctx ++ [text] in
  if bool_decide (3 < length ctx)%nat then tail ctx else ctx.

(** The filter of line 39:
    [not text or len(text) < 2 or text.startswith('http')]. *)
Definition ignored (text : pystr) : bool :=
  bool_decide (text = []) || bool_decide (length text < 2)%nat
  || startswith text HTTP.

(** Lines 42-57, for an entry that passed the filter.  The pair stores a
    copy of the window and [current_context] is then bound to a new list, so
    a stored context is a value that later appends cannot reach. *)
Definition observe (file_path your_name : pystr) (data : gmap pystr json)
    (st : extractor) (sender : json) (text : pystr) : extractor :=
  if eq_str sender your_name then
    match current_context st with
    | [] => st
    | _ :: _ =>
        {| conversations :=
             conversations st ++
               [ {| context := current_context st;
                    response := text;
                    source_file := basename file_path;
                    chat_name := dict_get_default data NAME (JStr UNKNOWN) |} ];
           current_context := [] |}
    end
  else
    {| conversations := conversations st;
       current_context := append_context (current_context st) text |}.

(** The body of the [for msg in ...] loop, lines 32-57.  [msg.get] raises
    [AttributeError] when [msg] is not a dict; [continue] returns the state
    as it is.  The test [msg.get('type') != 'message' or 'text' not in msg]
    is split in its two disjuncts, so that [msg['text']] is the value found
    by the membership test. *)
Definition loop_body (file_path your_name : pystr) (data : gmap pystr json)
    (st : extractor) (msg : json) : result extractor :=
  match msg with
  | JDict m =>
      if negb (eq_str (dict_get m TYPE) MESSAGE) then Ok st
      else
        match m !! TEXT with
        | None => Ok st
        | Some raw =>
            let sender := dict_get_default m FROM (JStr []) in
            text ← clean_text raw;
            if ignored text then Ok st
            else Ok (observe file_path your_name data st sender text)
        end
  | _ => Raise AttributeError
  end.

Definition run_messages (file_path your_name : pystr)
    (data : gmap pystr json) (st : extractor) (msgs : list json)
  : result extractor :=
  foldM (loop_body file_path your_name data) st msgs.

(** Lines 24-59, after [json.load]: [data.get] raises [AttributeError] when
    the document is not an object. *)
Definition extract (file_path your_name : pystr) (data : json)
  : result (list conversation) :=
  match data with
  | JDict d =>
      if negb (eq_str (dict_get d TYPE) PERSONAL_CHAT) then Ok []
      else
        msgs ← py_iter (dict_get_default d MESSAGES (JList []));
        st ← run_messages file_path your_name d (Extractor [] []) msgs;
        Ok (conversations st)
  | _ => Raise AttributeError
  end.

(** What the program writes to standard output in an [except] handler. *)
Inductive event : Type :=
| PrintError (file_path : pystr) (e : exn).

(** The dict [stats] of [create_training_dataset], lines 104-111. *)
Record statistics : Type := Statistics {
  total_conversations : nat;
  stat_processed_files : nat;
  stat_total_files : nat;
  chat_sources : gmap pystr nat;
  context_lengths : list nat;
  response_lengths : list nat
}.

(** The files.  [load_json] is [open] and [json.load] on a path: the parsed
    document, or the exception they raise.  [dump_dataset] and
    [dump_statistics] are the [with open(..., 'w', encoding='utf-8')]
    blocks around [json.dump] for the two output files, lines 99-100 and
    124-125: they return, or they raise, [OSError] when the file cannot be
    written and [UnicodeEncodeError] when a string to write holds a lone
    surrogate, as a chat name read from an export can. *)
Record filesystem : Type := Filesystem {
  exists_ : pystr → bool;
  glob_json : pystr → list pystr;
  load_json : pystr → result json;
  dump_dataset : list conversation → result unit;
  dump_statistics : statistics → result unit
}.

(** [process_chat_file(file_path, your_name)]: the returned list and what
    was printed. *)
Definition process_chat_file (fs : filesystem) (file_path your_name : pystr)
  : list conversation * list event :=
  match data ← load_json fs file_path; extract file_path your_name data with
  | Ok convs => (convs, [])
  | Raise e => ([], [PrintError file_path e])
  end.

(** ** [create_training_dataset] *)

(** The local variables of the aggregation loop, lines 75-90. *)
Record aggregate : Type := Aggregate {
  all_conversations : list conversation;
  total_files : nat;
  processed_files : nat;
  printed : list event
}.

(** One iteration for the file [name] of the folder; the path handed to
    [process_chat_file] is [chats_folder / name], and the owner is the
    default of the parameter [your_name]. *)
Definition aggregate_step (fs : filesystem) (a : aggregate) (name : pystr)
  : aggregate :=
  let json_file := CHATS_FOLDER ++ [SLASH] ++ name in
  let '(convs, evs) := process_chat_file fs json_file ANDREY in
  match convs with
  | [] =>
      {| all_conversations := all_conversations a;
         total_files := S (total_files a);
         processed_files := processed_files a;
         printed := printed a ++ evs |}
  | _ :: _ =>
      {| all_conversations := all_conversations a ++ convs;
         total_files := S (total_files a);
         processed_files := S (processed_files a);
         printed := printed a ++ evs |}
  end.

(** The body of [for conv in all_conversations], lines 113-120. *)
Definition stats_step (st : statistics) (conv : conversation) : statistics :=
  let source := source_file conv in
  {| total_conversations := total_conversations st;
     stat_processed_files := stat_processed_files st;
     stat_total_files := stat_total_files st;
     chat_sources :=
       <[source := (default 0%nat (chat_sources st !! source) + 1)%nat]>
         (chat_sources st);
     context_lengths := context_lengths st ++ [length (context conv)];
     response_lengths := response_lengths st ++ [length (response conv)] |}.

Definition make_stats (a : aggregate) : statistics :=
  fold_left stats_step (all_conversations a)
    {| total_conversations := length (all_conversations a);
       stat_processed_files := processed_files a;
       stat_total_files := total_files a;
       chat_sources := ∅;
       context_lengths := [];
       response_lengths := [] |}.

(** What a run leaves behind: the two files it wrote, if it wrote them
    ([training_dataset.json] and [dataset_statistics.json]), the warnings
    it printed, and the exception of a [json.dump] that raised, if one did:
    nothing catches it, so the run ends there, and the file it was writing
    is left incomplete, which is no dataset.  Informational prints are
    left out. *)
Record run : Type := Run {
  counters : aggregate;
  training_dataset : option (list conversation);
  dataset_statistics : option statistics;
  failed_dump : option exn
}.

(** Lines 75-90. *)
Definition aggregate_loop (fs : filesystem) (names : list pystr) : aggregate :=
  fold_left (aggregate_step fs) names (Aggregate [] 0 0 []).

(** [create_training_dataset()]: nothing is done when the chats folder
    does not exist (lines 71-73).  Otherwise, when the corpus is not empty,
    the dataset is written (lines 99-100), then the statistics are built
    and written (lines 104-125); an exception of either [json.dump] ends
    the run. *)
Definition create_training_dataset (fs : filesystem) : option run :=
  if negb (exists_ fs CHATS_FOLDER) then None
  else
    let a := aggregate_loop fs (glob_json fs CHATS_FOLDER) in
    match all_conversations a with
    | [] => Some (Run a None None None)
    | _ :: _ =>
        match dump_dataset fs (all_conversations a) with
        | Raise e => Some (Run a None None (Some e))
        | Ok _ =>
            let stats := make_stats a in
            match dump_statistics fs stats with
            | Raise e => Some (Run a (Some (all_conversations a)) None (Some e))
            | Ok _ =>
                Some (Run a (Some (all_conversations a)) (Some stats) None)
            end
        end
    end.

(** ** [MessageGenerator] *)

#[local] Unset Equations With Funext.

(** [s.split(sep)] for a non-empty separator [a :: sep']: scan from the
    left, cut at each occurrence and go on after it.  [cur] holds the
    characters of the current piece, last first. *)
Equations? split_from (a : N) (sep' : pystr) (cur : pystr) (s : pystr)
  : list pystr by wf (length s) lt :=
  split_from a sep' cur [] := [reverse cur];
  split_from a sep' cur (c :: s') with startswith (c :: s') (a :: sep') := {
    | true := reverse cur :: split_from a sep' [] (drop (length sep') s');
    | false := split_from a sep' (c :: cur) s' }.
Proof.
  all: simpl; try lia.
  rewrite length_drop. lia.
Qed.

(** [str.split] raises [ValueError] on an empty separator. *)
Definition split (s sep : pystr) : result (list pystr) :=
  match sep with
  | [] => Raise ValueError
  | a :: sep' => Ok (split_from a sep' [] s)
  end.

(** [l[-1]]. *)
Definition last_item (l : list pystr) : result pystr :=
  match last l with
  | Some x => Ok x
  | None => Raise IndexError
  end.

(** Lines 98-101: keep what follows the self marker. *)
Definition extract_reply (full_response : pystr) : result pystr :=
  if contains SELF_MARKER full_response then
    pieces ← split full_response SELF_MARKER;
    piece ← last_item pieces;
    Ok (strip piece)
  else Ok (strip full_response).

(** The collaborators behind [transformers] and [torch]: their objects,
    their state (weights, device, random generator) and their calls, each of
    which may raise.  A temperature is a float; only the sum of line 116 is
    ever computed on it. *)
Variable Tokenizer Model World Temperature : Type.
Variable tokenizer_from_pretrained : pystr → World → result Tokenizer * World.
Variable model_from_pretrained : pystr → World → result Model * World.
Variable vary : Temperature → nat → Temperature.
(** Lines 73-95: tokenize the prompt, sample, decode. *)
Variable infer :
  Tokenizer → Model → pystr → Z → Temperature → World → result pystr * World.

(** The attributes of a generator.  [None] is the only falsy value a
    loaded attribute is taken to have in the guard of line 60. *)
Record MessageGenerator : Type := {
  model_path : pystr;
  tokenizer : option Tokenizer;
  model : option Model
}.

(** [__init__] and [load_model]: an exception of either loader is logged
    and raised again, so no object is built. *)
Definition init (path : pystr) (w : World) : result MessageGenerator * World :=
  match tokenizer_from_pretrained path w with
  | (Raise e, w1) => (Raise e, w1)
  | (Ok t, w1) =>
      match model_from_pretrained path w1 with
      | (Raise e, w2) => (Raise e, w2)
      | (Ok m, w2) =>
          (Ok {| model_path := path; tokenizer := Some t; model := Some m |},
           w2)
      end
  end.

(** Lines 65-68. *)
Definition dialog_text (context_messages : list pystr) : pystr :=
  concat (map (λ msg, INTERLOCUTOR_MARKER ++ msg ++ [10]) context_messages)
    ++ SELF_MARKER.

(** [generate_response]: the guard of line 60 raises outside the [try];
    everything after it is inside. *)
Definition generate_response (g : MessageGenerator)
    (context_messages : list pystr) (max_length : Z) (temperature : Temperature)
    (w : World) : result pystr * World :=
  match model g, tokenizer g with
  | Some m, Some t =>
      let '(decoded, w') :=
        infer t m (dialog_text context_messages) max_length temperature w in
      match full_response ← decoded; extract_reply full_response with
      | Ok your_response => (Ok your_response, w')
      | Raise _ => (Ok FALLBACK, w')
      end
  | _, _ => (Raise RuntimeError, w)
  end.

(** [generate_multiple_responses]: [i] runs over [range(num_responses)];
    [generate_response] is called with its default [max_length]. *)
Fixpoint generate_loop (g : MessageGenerator) (context_messages : list pystr)
    (temperature : Temperature) (indices : list nat) (responses : list pystr)
    (w : World) : result (list pystr) * World :=
  match indices with
  | [] => (Ok responses, w)
  | i :: rest =>
      let temp := vary temperature i in
      match generate_response g context_messages 100 temp w with
      | (Ok response, w') =>
          generate_loop g context_messages temperature rest
            (responses ++ [response]) w'
      | (Raise e, w') => (Raise e, w')
      end
  end.

Definition generate_multiple_responses (g : MessageGenerator)
    (context_messages : list pystr) (num_responses : Z)
    (temperature : Temperature) (w : World) : result (list pystr) * World :=
  generate_loop g context_messages temperature
    (seq 0 (Z.to_nat num_responses)) [] w.

(** [interactive_mode] and [batch_mode] use three more things of the
    runtime: the default temperature of the two generation methods (the
    float [0.7]), [str.lower], and the text [str(e)] of an exception. *)
Variable default_temperature : Temperature.
Variable lower : pystr → pystr.
Variable exn_message : exn → pystr.

Definition DEFAULT_MODEL_PATH : pystr := Eval cbv in u "../dataset/my_dialogpt".
Definition ERROR_PREFIX : pystr := Eval cbv in u "Ошибка: ".
Definition EXIT : pystr := Eval cbv in u "exit".

(** [batch_mode]: what it returns.  Both the constructor and
    [generate_response] are inside the [try]; the handler returns the
    formatted error. *)
Definition batch_mode (context_messages : list pystr) (w : World)
  : pystr * World :=
  match init DEFAULT_MODEL_PATH w with
  | (Ok generator, w1) =>
      match generate_response generator context_messages 100
              default_temperature w1 with
      | (Ok response, w2) => (response, w2)
      | (Raise e, w2) => (ERROR_PREFIX ++ exn_message e, w2)
      end
  | (Raise e, w1) => (ERROR_PREFIX ++ exn_message e, w1)
  end.

(** What a session of [interactive_mode] shows, apart from its fixed
    banners: the context and the candidates (lines 150-158), the selected
    answer (line 166), the skip notice (line 169), the farewell (line 141)
    and the error of the last handler (line 174).  [input] raises [EOFError]
    when the input is exhausted; it is reported by the same handler. *)
Inductive session_event : Type :=
| Offered (context : list pystr) (responses : list pystr)
| Selected (response : pystr)
| Skipped
| Goodbye
| Failed (e : exn)
| FailedEOF.

(** The two places where the session waits for a line: the inner loop of
    lines 138-145 with the context gathered so far, and line 162 with the
    candidates just printed. *)
Inductive prompt : Type :=
| AskMessage (context : list pystr)
| AskChoice (responses : list pystr).

(** [int(choice) - 1] for a [choice in ['1', '2', '3']]. *)
Definition choice_index (choice : pystr) : option nat :=
  if bool_decide (choice = [49]) then Some 0%nat
  else if bool_decide (choice = [50]) then Some 1%nat
  else if bool_decide (choice = [51]) then Some 2%nat
  else None.

(** The loops of lines 134-169, one input line at a time. *)
Fixpoint session (generator : MessageGenerator) (at_ : prompt)
    (lines : list pystr) (w : World) : list session_event * World :=
  match lines with
  | [] => ([FailedEOF], w)
  | line :: lines' =>
      match at_ with
      | AskMessage context =>
          let msg := strip line in
          if bool_decide (lower msg = EXIT) then ([Goodbye], w)
          else if bool_decide (msg = []) then
            match context with
            | [] => session generator (AskMessage []) lines' w
            | _ :: _ =>
                match generate_multiple_responses generator context 3
                        default_temperature w with
                | (Ok responses, w') =>
                    let '(evs, w'') :=
                      session generator (AskChoice responses) lines' w' in
                    (Offered context responses :: evs, w'')
                | (Raise e, w') => ([Failed e], w')
                end
            end
          else session generator (AskMessage (context ++ [msg])) lines' w
      | AskChoice responses =>
          let choice := strip line in
          match choice_index choice with
          | Some i =>
              match responses !! i with
              | Some selected =>
                  let '(evs, w') :=
                    session generator (AskMessage []) lines' w in
                  (Selected selected :: evs, w')
              | None => ([Failed IndexError], w)
              end
          | None =>
              let '(evs, w') := session generator (AskMessage []) lines' w in
              (Skipped :: evs, w')
          end
      end
  end.

(** [interactive_mode] on the lines of its standard input. *)
Definition interactive_mode (lines : list pystr) (w : World)
  : list session_event * World :=
  match init DEFAULT_MODEL_PATH w with
  | (Ok generator, w1) => session generator (AskMessage []) lines w1
  | (Raise e, w1) => ([Failed e], w1)
  end.

(** ** [train_model_locally.py]: [format_dataset] *)

(** Lines 54-57: the text of one training example; [eos_token] is the
    tokenizer's. *)
Definition example_text (eos_token : pystr) (context : list pystr)
    (response : pystr) : pystr :=
  concat (map (λ msg, INTERLOCUTOR_MARKER ++ msg ++ [10]) context)
    ++ (SELF_MARKER ++ response ++ eos_token).

(** A batch handed to [format_dataset]: the columns [examples['context']]
    and [examples['response']]. *)
Record examples : Type := Examples {
  context_column : list (list pystr);
  response_column : list pystr
}.

(** [l[i]] for an index that is not negative. *)
Definition item {A} (l : list A) (i : nat) : result A :=
  match l !! i with
  | Some x => Ok x
  | None => Raise IndexError
  end.

(** Lines 48-59: the list [inputs]. *)
Definition format_inputs (eos_token : pystr) (ex : examples)
  : result (list pystr) :=
  foldM (λ inputs i,
           context ← item (context_column ex) i;
           response ← item (response_column ex) i;
           Ok (inputs ++ [example_text eos_token context response]))
        [] (seq 0 (length (context_column ex))).

(** ** Sample values

    Used by the concrete runs at the end of the file. *)

(** A part of [str.isalnum]: ASCII digits and letters, Russian letters. *)
Definition isalnum_basic (c : N) : bool :=
  ((48 <=? c) && (c <=? 57)) || ((65 <=? c) && (c <=? 90))
  || ((97 <=? c) && (c <=? 122)) || ((1040 <=? c) && (c <=? 1103))
  || (c =? 1025) || (c =? 1105).

(** No sample run stringifies a list or a dict. *)
Definition repr_elided (v : json) : result pystr := Ok [].

(** The limit on the digits of an integer that [str] has by default. *)
Definition digit_limit : nat := 4300.

(** An exported message with and without a [from] key. *)
Definition entry (sender text : string) : json :=
  JDict (list_to_map
    [(TYPE, JStr MESSAGE); (FROM, JStr (u sender)); (TEXT, JStr (u text))]).
Definition anonymous_entry (text : string) : json :=
  JDict (list_to_map [(TYPE, JStr MESSAGE); (TEXT, JStr (u text))]).

(** An exported chat named [Bob]. *)
Definition chat_header (kind : string) (msgs : list json)
  : gmap pystr json :=
  list_to_map
    [(NAME, JStr (u "Bob")); (TYPE, JStr (u kind)); (MESSAGES, JList msgs)].
Definition chat (kind : string) (msgs : list json) : json :=
  JDict (chat_header kind msgs).

(** A folder given by its files: a name and what loading it gives. *)
Fixpoint load_from (files : list (pystr * result json)) (path : pystr)
  : result json :=
  match files with
  | [] => Raise OSError
  | (name, content) :: files' =>
      if bool_decide (path = CHATS_FOLDER ++ [SLASH] ++ name) then content
      else load_from files' path
  end.
Definition folder (files : list (pystr * result json)) : filesystem :=
  {| exists_ := λ p, bool_decide (p = CHATS_FOLDER);
     glob_json := λ _, files.*1;
     load_json := load_from files;
     dump_dataset := λ _, Ok tt;
     dump_statistics := λ _, Ok tt |}.

(** The same folder when a chat name cannot be encoded, so that writing the
    dataset raises. *)
Definition unencodable_folder (files : list (pystr * result json))
  : filesystem :=
  {| exists_ := λ p, bool_decide (p = CHATS_FOLDER);
     glob_json := λ _, files.*1;
     load_json := load_from files;
     dump_dataset := λ _, Raise UnicodeEncodeError;
     dump_statistics := λ _, Ok tt |}.

Definition sample_path : pystr := Eval cbv in u "2025_08_12/a.json".

(** Four files: a personal chat with two pairs, a file that is not JSON,
    the export of a group, and a personal chat with an entry that is not
    an object. *)
Definition sample_folder : filesystem :=
  folder
    [(u "a.json",
      Ok (chat "personal_chat"
            [entry "Bob" "Hi"; entry "Bob" "How are you";
             entry "Andrey" "Good, thanks";
             entry "Bob" "ok then"; entry "Andrey" "yes"]));
     (u "b.json", Raise JSONDecodeError);
     (u "c.json",
      Ok (chat "private_group" [entry "Bob" "Hi"; entry "Andrey" "Good"]));
     (u "d.json",
      Ok (chat "personal_chat"
            [entry "Bob" "Hi"; entry "Andrey" "Good"; JStr (u "?")]))].

(** A personal chat whose texts are a number and a boolean, and one whose
    [messages] is an empty object: the export format has neither. *)
Definition typed_entry (sender : string) (text : json) : json :=
  JDict (list_to_map
    [(TYPE, JStr MESSAGE); (FROM, JStr (u sender)); (TEXT, text)]).
Definition odd_messages : list json :=
  [typed_entry "Bob" (JInt 12345); typed_entry "Andrey" (JBool true)].
Definition odd_chat : json := chat "personal_chat" odd_messages.
Definition hollow_chat : json :=
  JDict (list_to_map
    [(NAME, JStr (u "Bob")); (TYPE, JStr PERSONAL_CHAT);
     (MESSAGES, JDict ∅)]).

(** A stand-in for the model: the world counts the calls, every call with
    an even count raises, the others echo the prompt and add a reply. *)
Definition echo_infer (t m : unit) (prompt : pystr) (max_length : Z)
    (temperature : nat) (w : nat) : result pystr * nat :=
  (if Nat.even w then Raise InferenceError else Ok (prompt ++ u "ok "), S w).
Definition echo_load (path : pystr) (w : nat) : result unit * nat := (Ok tt, w).

(** The messages of the first file of [sample_folder]. *)
Definition sample_messages : list json :=
  [entry "Bob" "Hi"; entry "Bob" "How are you"; entry "Andrey" "Good, thanks";
   entry "Bob" "ok then"; entry "Andrey" "yes"].

(** A part of [str.lower]: the ASCII capitals. *)
Definition lower_ascii (s : pystr) : pystr :=
  map (λ c, if (65 <=? c) && (c <=? 90) then c + 32 else c) s.

(** A stand-in for [str(e)]. *)
Definition exn_name (e : exn) : pystr :=
  match e with
  | OSError => u "no such directory"
  | RuntimeError => u "model is not loaded"
  | _ => u "error"
  end.

(** A loader that fails, and a generator without its model. *)
Definition failing_load (path : pystr) (w : nat) : result unit * nat :=
  (Raise OSError, w).

(** A service entry of an export. *)
Definition service_entry : json :=
  JDict (list_to_map
    [(TYPE, JStr (u "service")); (u "action", JStr (u "phone_call"))]).

(** What is typed in a sample session: two messages, a blank line, the
    choice of the second candidate, a blank line, and the exit word. *)
Definition sample_lines : list pystr :=
  [u "  Hi "; u "How are you"; u ""; u " 2"; u " "; u "EXIT"; u "ignored"].

(** ** Vocabulary of the statements *)

(** No leading and no trailing whitespace. *)
Definition trimmed (s : pystr) : Prop :=
  (∀ c, head s = Some c → isspace c = false) ∧
  (∀ c, last s = Some c → isspace c = false).

(** [r] is [s] without the whitespace at its two ends: it has no leading
    and no trailing whitespace, and [s] is [r] between two runs of
    whitespace. *)
Definition stripping (s r : pystr) : Prop :=
  trimmed r ∧
  ∃ lead trail, s = lead ++ r ++ trail ∧
                Forall (λ c, isspace c = true) lead ∧
                Forall (λ c, isspace c = true) trail.

(** Every whitespace character is a plain space and no two are adjacent;
    [after_space] tells that the character before the string is one. *)
Fixpoint single_spaced (after_space : bool) (s : pystr) : Prop :=
  match s with
  | [] => True
  | c :: s' =>
      if isspace c
      then c = SPACE ∧ after_space = false ∧ single_spaced true s'
      else single_spaced false s'
  end.

(** The invariant of a cleaned text. *)
Definition cleaned (s : pystr) : Prop :=
  Forall (λ c, keep c = true) s ∧ single_spaced false s ∧ trimmed s.

(** What one fragment contributes: the [str] of its [text] field when it is
    dict-like, its own [str] otherwise. *)
Inductive contributes : json → pystr → Prop :=
| contributes_dict d v part :
    d !! TEXT = Some v → py_str v = Ok part → contributes (JDict d) part
| contributes_scalar t part :
    (∀ d, t ≠ JDict d) → py_str t = Ok part → contributes t part.

(** The string that lines 13-16 work on: the concatenation of the
    contributions of a fragment list, the [str] of anything else. *)
Inductive joined : json → pystr → Prop :=
| joined_fragments l parts :
    Forall2 contributes l parts → joined (JList l) (concat parts)
| joined_plain v whole :
    (∀ l, v ≠ JList l) → py_str v = Ok whole → joined v whole.

(** The values that are neither a list nor an object and that [str]
    accepts: a string, [None], a boolean, a float, and an integer within
    the digit limit. *)
Definition scalar (v : json) : Prop :=
  match v with
  | JStr _ | JNull | JBool _ | JFloat _ => True
  | JInt z => over_limit z = false
  | JList _ | JDict _ => False
  end.

(** The inputs of [clean_text] that the export format has for a text: a
    scalar, or a list of fragments, each a scalar or a dict-like fragment
    with a scalar under [text]. *)
Definition text_fragment (t : json) : Prop :=
  scalar t ∨ ∃ d v, t = JDict d ∧ d !! TEXT = Some v ∧ scalar v.
Definition text_value (text : json) : Prop :=
  scalar text ∨ ∃ l, text = JList l ∧ Forall text_fragment l.

(** The values on which [str] raises: an integer beyond the digit limit,
    a list or a dict whose [repr] raises. *)
Definition unprintable (v : json) : Prop :=
  match v with
  | JInt z => over_limit z = true
  | JList _ | JDict _ => ∃ e, repr_container v = Raise e
  | _ => False
  end.

(** A fragment that line 10 raises on: a dict-like fragment without
    [text], or a value to convert on which [str] raises.  A text that
    [clean_text] raises on: a fragment list with such a fragment, or a
    value that is not a list on which [str] raises. *)
Definition bad_fragment (t : json) : Prop :=
  match t with
  | JDict d =>
      match d !! TEXT with
      | None => True
      | Some v => unprintable v
      end
  | _ => unprintable t
  end.
Definition bad_text (raw : json) : Prop :=
  match raw with
  | JList l => Exists bad_fragment l
  | _ => unprintable raw
  end.

(** An entry that reaches line 42: a dict of type [message] with a [text]
    whose cleaning succeeds and passes the filter of line 39.  [sender] is
    the value of [msg.get('from', '')] and [text] the cleaned text. *)
Inductive survives : json → json → pystr → Prop :=
| survives_entry m raw text :
    eq_str (dict_get m TYPE) MESSAGE = true →
    m !! TEXT = Some raw →
    clean_text raw = Ok text →
    ignored text = false →
    survives (JDict m) (dict_get_default m FROM (JStr [])) text.

(** An entry of type [message] whose text cleans to [text], whatever the
    filter says about it. *)
Inductive cleans_to : json → pystr → Prop :=
| cleans_to_entry m raw text :
    eq_str (dict_get m TYPE) MESSAGE = true →
    m !! TEXT = Some raw →
    clean_text raw = Ok text →
    cleans_to (JDict m) text.

(** A surviving entry of the interlocutor: its sender is not the owner. *)
Definition incoming (your_name : pystr) (msg : json) (text : pystr) : Prop :=
  ∃ sender, survives msg sender text ∧ sender ≠ JStr your_name.

(** The last three elements of a list (all of it when it is shorter). *)
Definition last3 {A} (l : list A) : list A := drop (length l - 3) l.

(** The pair built at lines 45-50. *)
Definition pair_of (file_path : pystr) (data : gmap pystr json)
    (ctx : list pystr) (text : pystr) : conversation :=
  {| context := ctx;
     response := text;
     source_file := basename file_path;
     chat_name := dict_get_default data NAME (JStr UNKNOWN) |}.

(** What holds of every pair the extractor of [file_path] emits, and of its
    state after any number of entries. *)
Definition pair_ok (file_path : pystr) (c : conversation) : Prop :=
  (1 ≤ length (context c) ≤ 3)%nat ∧
  Forall (λ t, ignored t = false) (context c) ∧
  ignored (response c) = false ∧
  source_file c = basename file_path.

Definition extractor_ok (file_path : pystr) (st : extractor) : Prop :=
  (length (current_context st) ≤ 3)%nat ∧
  Forall (λ t, ignored t = false) (current_context st) ∧
  Forall (pair_ok file_path) (conversations st).

(** A chat log of type [personal_chat]. *)
Definition personal_chat (d : gmap pystr json) : Prop :=
  dict_get d TYPE = JStr PERSONAL_CHAT.

(** An entry of [messages] that the loop raises on: one that is not an
    object, or a message whose text [clean_text] raises on. *)
Definition bad_entry (msg : json) : Prop :=
  (∀ m, msg ≠ JDict m) ∨
  (∃ m raw, msg = JDict m ∧ dict_get m TYPE = JStr MESSAGE ∧
            m !! TEXT = Some raw ∧ bad_text raw).

(** The documents that the traversal of lines 24-57 raises on, by their
    shape: a document that is not an object; a personal chat whose
    [messages] is not a list but a number, a boolean or [null] (not
    iterable), a non-empty string (its characters are not objects) or a
    non-empty object (its keys are not objects); a personal chat with a
    bad entry in its [messages]. *)
Inductive untraversable : json → Prop :=
| untraversable_document data :
    (∀ d, data ≠ JDict d) → untraversable data
| untraversable_messages_scalar d v :
    personal_chat d → d !! MESSAGES = Some v →
    (∀ l, v ≠ JList l) → (∀ s, v ≠ JStr s) → (∀ m, v ≠ JDict m) →
    untraversable (JDict d)
| untraversable_messages_string d s :
    personal_chat d → d !! MESSAGES = Some (JStr s) → s ≠ [] →
    untraversable (JDict d)
| untraversable_messages_object d m :
    personal_chat d → d !! MESSAGES = Some (JDict m) → m ≠ ∅ →
    untraversable (JDict d)
| untraversable_entry d l :
    personal_chat d → d !! MESSAGES = Some (JList l) → Exists bad_entry l →
    untraversable (JDict d).

(** The input file format in the words of the specification (section 6,
    not the code): one JSON document per chat with [type], [name] and
    [messages], an ordered sequence of objects with [type], [from] (a
    string) and [text], which is a string or a sequence of fragments, each
    either a string or an object with a [text] field. *)
Definition schema_fragment (t : json) : Prop :=
  (∃ s, t = JStr s) ∨ (∃ d, t = JDict d ∧ is_Some (d !! TEXT)).
Definition schema_text (raw : json) : Prop :=
  (∃ s, raw = JStr s) ∨ (∃ l, raw = JList l ∧ Forall schema_fragment l).
Definition schema_entry (msg : json) : Prop :=
  ∃ m, msg = JDict m ∧
       (∃ s, m !! TYPE = Some (JStr s)) ∧
       (∀ v, m !! FROM = Some v → ∃ s, v = JStr s) ∧
       (∀ raw, m !! TEXT = Some raw → schema_text raw).
Definition follows_schema (data : json) : Prop :=
  ∃ d, data = JDict d ∧
       (∃ s, d !! TYPE = Some (JStr s)) ∧
       ∃ l, d !! MESSAGES = Some (JList l) ∧ Forall schema_entry l.

(** The path of the file [name] of the chats folder, and the pairs that
    [create_training_dataset] gets for it. *)
Definition path_of (name : pystr) : pystr := CHATS_FOLDER ++ [SLASH] ++ name.
Definition pairs_of (fs : filesystem) (name : pystr) : list conversation :=
  (process_chat_file fs (path_of name) ANDREY).1.

(** The number of pairs of a corpus whose source file is [f]. *)
Definition pairs_from (f : pystr) (corpus : list conversation) : nat :=
  length (filter (λ c, source_file c = f) corpus).

(** [m] occurs in [s]; its last occurrence in [s] is between [a] and [b]. *)
Definition occurs (m s : pystr) : Prop := ∃ a b, s = a ++ m ++ b.
Definition last_occurrence (m s a b : pystr) : Prop :=
  s = a ++ m ++ b ∧ ∀ a' b', s = a' ++ m ++ b' → (length a' ≤ length a)%nat.

(** A text the extractor lets through: cleaned, at least two characters,
    not starting with [http]. *)
Definition text_ok (t : pystr) : Prop :=
  cleaned t ∧ (2 ≤ length t)%nat ∧ startswith t HTTP = false.

(** The record written for one pair of the chat [data] read from
    [file_path]. *)
Definition pair_schema (file_path : pystr) (data : gmap pystr json)
    (c : conversation) : Prop :=
  (1 ≤ length (context c) ≤ 3)%nat ∧
  Forall text_ok (context c) ∧
  text_ok (response c) ∧
  source_file c = basename file_path ∧
  chat_name c = dict_get_default data NAME (JStr UNKNOWN).

Definition extractor_schema (file_path : pystr) (data : gmap pystr json)
    (st : extractor) : Prop :=
  (length (current_context st) ≤ 3)%nat ∧
  Forall text_ok (current_context st) ∧
  Forall (pair_schema file_path data) (conversations st).

(** An entry that line 32 skips: an object that is not of type [message]
    or has no [text]. *)
Definition skipped_entry (msg : json) : Prop :=
  ∃ m, msg = JDict m ∧ (dict_get m TYPE ≠ JStr MESSAGE ∨ m !! TEXT = None).

(** The sum of the counts of [chat_sources]. *)
Definition sum_counts (m : gmap pystr nat) : nat :=
  map_fold (λ _ n acc, (n + acc)%nat) 0%nat m.

(** The files of the folder that gave at least one pair. *)
Definition productive (fs : filesystem) (names : list pystr) : list pystr :=
  filter (λ name, (0 < length (pairs_of fs name))%nat) names.

(** A generator whose two attributes are set. *)
Definition loaded (g : MessageGenerator) : Prop :=
  is_Some (tokenizer g) ∧ is_Some (model g).

(** What a reply looks like: stripped, and without the self marker. *)
Definition final_reply (r : pystr) : Prop :=
  trimmed r ∧ ¬ occurs SELF_MARKER r.

(** The shape of what a session shows.  [pending] holds the candidates
    when the next thing to come is the answer to "which one": a context
    that is offered is never empty and made of stripped, non-empty
    messages, it comes with three candidates, and what is selected next is
    one of them; the session ends with the farewell or with the end of the
    input, never with another error. *)
Inductive transcript : option (list pystr) → list session_event → Prop :=
| transcript_goodbye : transcript None [Goodbye]
| transcript_eof pending : transcript pending [FailedEOF]
| transcript_offered context responses evs :
    context ≠ [] →
    Forall (λ msg, msg ≠ [] ∧ trimmed msg) context →
    length responses = 3%nat →
    transcript (Some responses) evs →
    transcript None (Offered context responses :: evs)
| transcript_selected responses response evs :
    response ∈ responses →
    transcript None evs →
    transcript (Some responses) (Selected response :: evs)
| transcript_skipped responses evs :
    transcript None evs →
    transcript (Some responses) (Skipped :: evs).

(** * Properties *)

(** ** Stripping and whitespace runs *)

Lemma isspace_SPACE : isspace SPACE = true.
Proof. reflexivity. Qed.

Lemma keep_SPACE : keep SPACE = true.
Proof.
  unfold keep. rewrite isspace_SPACE. apply orb_true_iff. left.
  apply orb_true_r.
Qed.

(** [drop_while] removes a prefix made of characters satisfying [p] and
    stops at a character that does not. *)
Lemma drop_while_split p s :
  ∃ t, s = t ++ drop_while p s ∧ Forall (λ c, p c = true) t.
Proof.
  induction s as [|c s IH]; simpl.
  - exists []. split; [done | constructor].
  - destruct (p c) eqn:Hc.
    + destruct IH as (t & Ht & Hall). exists (c :: t). split.
      * simpl. by rewrite <- Ht.
      * by constructor.
    + exists []. split; [done | constructor].
Qed.

Lemma drop_while_head p s c :
  head (drop_while p s) = Some c → p c = false.
Proof.
  induction s as [|d s IH]; simpl; [done|].
  destruct (p d) eqn:Hd; [done|]. simpl. by intros [= <-].
Qed.

Lemma drop_while_id p s :
  (∀ c, head s = Some c → p c = false) → drop_while p s = s.
Proof.
  destruct s as [|c s]; simpl; [done|]. intros H. by rewrite (H c).
Qed.

Lemma rstrip_split s :
  ∃ t, s = rstrip s ++ t ∧ Forall (λ c, isspace c = true) t.
Proof.
  unfold rstrip.
  destruct (drop_while_split isspace (reverse s)) as (t & Ht & Hall).
  exists (reverse t). split.
  - rewrite <- reverse_app, <- Ht. by rewrite reverse_involutive.
  - by apply Forall_reverse.
Qed.

Lemma rstrip_last s c : last (rstrip s) = Some c → isspace c = false.
Proof.
  unfold rstrip. rewrite last_reverse. apply drop_while_head.
Qed.

Lemma rstrip_id s :
  (∀ c, last s = Some c → isspace c = false) → rstrip s = s.
Proof.
  intros H. unfold rstrip. rewrite drop_while_id.
  - apply reverse_involutive.
  - intros c Hc. apply H. by rewrite <- head_reverse.
Qed.


Lemma strip_trimmed s : trimmed (strip s).
Proof.
  unfold strip. split; [|apply rstrip_last].
  intros c Hc. apply (drop_while_head isspace s). fold (lstrip s).
  destruct (rstrip_split (lstrip s)) as (t & Ht & _).
  rewrite Ht. destruct (rstrip (lstrip s)); [done|]. done.
Qed.

Lemma strip_id s : trimmed s → strip s = s.
Proof.
  intros [Hh Hl]. unfold strip, lstrip. rewrite drop_while_id by done.
  by apply rstrip_id.
Qed.

(** [strip s] is a segment of [s] between two runs of whitespace. *)
Lemma strip_split s :
  ∃ l r, s = l ++ strip s ++ r ∧
         Forall (λ c, isspace c = true) l ∧ Forall (λ c, isspace c = true) r.
Proof.
  unfold strip, lstrip.
  destruct (drop_while_split isspace s) as (l & Hl & Hal).
  destruct (rstrip_split (drop_while isspace s)) as (r & Hr & Har).
  exists l, r. split; [|done]. by rewrite <- Hr.
Qed.

Lemma drop_while_app_all p t s :
  Forall (λ c, p c = true) t → drop_while p (t ++ s) = drop_while p s.
Proof.
  induction 1 as [|c t Hc _ IH]; simpl; [done|]. by rewrite Hc.
Qed.

Lemma drop_while_all p t : Forall (λ c, p c = true) t → drop_while p t = [].
Proof.
  intros H. rewrite <- (app_nil_r t). by rewrite drop_while_app_all.
Qed.

Lemma strip_stripping s : stripping s (strip s).
Proof. split; [apply strip_trimmed | apply strip_split]. Qed.

(** There is one such string. *)
Lemma stripping_unique s r : stripping s r → r = strip s.
Proof.
  intros ([Hhead Hlast] & lead & trail & -> & Hlead & Htrail).
  unfold strip, lstrip. rewrite drop_while_app_all by done.
  destruct r as [|c r].
  - simpl. by rewrite drop_while_all.
  - rewrite drop_while_id by (simpl; apply Hhead).
    unfold rstrip. rewrite reverse_app.
    rewrite drop_while_app_all by (by apply Forall_reverse).
    rewrite drop_while_id; [by rewrite reverse_involutive|].
    intros c' Hc'. apply Hlast. by rewrite <- head_reverse.
Qed.

Lemma sub_spaces_from_single_spaced b s :
  single_spaced b (sub_spaces_from b s).
Proof.
  revert b. induction s as [|c s IH]; intros b; simpl; [done|].
  destruct (isspace c) eqn:Hc.
  - destruct b; [apply IH|]. change (single_spaced false (SPACE :: ?x)) with
      (SPACE = SPACE ∧ false = false ∧ single_spaced true x). auto.
  - simpl. rewrite Hc. apply IH.
Qed.

Lemma sub_spaces_from_id b s :
  single_spaced b s → sub_spaces_from b s = s.
Proof.
  revert b. induction s as [|c s IH]; intros b; simpl; [done|].
  destruct (isspace c) eqn:Hc.
  - intros (-> & -> & H). by rewrite IH.
  - intros H. by rewrite IH.
Qed.

Lemma single_spaced_weaken b s : single_spaced b s → single_spaced false s.
Proof.
  destruct s as [|c s]; simpl; [done|].
  destruct (isspace c); [|done]. intros (? & ? & ?). auto.
Qed.

Lemma single_spaced_app_l b s t : single_spaced b (s ++ t) → single_spaced b s.
Proof.
  revert b. induction s as [|c s IH]; intros b; simpl; [done|].
  destruct (isspace c); [|apply IH]. intros (? & ? & ?). eauto.
Qed.

Lemma single_spaced_app_r b s t :
  single_spaced b (s ++ t) → single_spaced false t.
Proof.
  revert b. induction s as [|c s IH]; intros b; simpl.
  - apply single_spaced_weaken.
  - destruct (isspace c); [|apply IH]. intros (? & ? & ?). eauto.
Qed.

Lemma sub_spaces_from_keep b s :
  Forall (λ c, keep c = true) s →
  Forall (λ c, keep c = true) (sub_spaces_from b s).
Proof.
  intros H. revert b. induction H as [|c s Hc _ IH]; intros b; simpl.
  - constructor.
  - destruct (isspace c); [destruct b|]; auto using keep_SPACE.
Qed.

Lemma sub_special_keep s : Forall (λ c, keep c = true) (sub_special s).
Proof.
  unfold sub_special. apply Forall_map, Forall_true. intros c. simpl.
  destruct (keep c) eqn:Hc; [done | apply keep_SPACE].
Qed.

Lemma sub_special_id s : Forall (λ c, keep c = true) s → sub_special s = s.
Proof.
  unfold sub_special. induction 1 as [|c s Hc _ IH]; simpl; [done|].
  by rewrite Hc, IH.
Qed.


Lemma clean_str_cleaned s : cleaned (clean_str s).
Proof.
  unfold clean_str.
  destruct (strip_split (sub_spaces (sub_special s))) as (l & r & Hs & _ & _).
  pose proof (sub_spaces_from_keep false _ (sub_special_keep s)) as Hk.
  pose proof (sub_spaces_from_single_spaced false (sub_special s)) as Hsp.
  fold (sub_spaces (sub_special s)) in Hk, Hsp. rewrite Hs in Hk, Hsp.
  split; [|split].
  - apply Forall_app in Hk as [_ Hk]. by apply Forall_app in Hk as [Hk _].
  - apply single_spaced_app_r in Hsp. by apply single_spaced_app_l in Hsp.
  - apply strip_trimmed.
Qed.

Lemma clean_str_id s : cleaned s → clean_str s = s.
Proof.
  intros (Hk & Hsp & Ht). unfold clean_str, sub_spaces.
  rewrite sub_special_id by done. rewrite sub_spaces_from_id by done.
  by apply strip_id.
Qed.

(** ** [clean_text] *)

Lemma py_str_scalar v : scalar v → ∃ s, py_str v = Ok s.
Proof.
  destruct v as [|[]| | | | |]; simpl; try done; eauto.
  intros ->. eauto.
Qed.

Lemma py_str_raises_iff v : (∃ e, py_str v = Raise e) ↔ unprintable v.
Proof.
  destruct v as [|[]|z| | | |]; simpl; try (split; [by intros [? ?] | done]);
    try done.
  destruct (over_limit z); split; try done; eauto. by intros [? ?].
Qed.

Lemma py_str_cases v :
  (∃ s, py_str v = Ok s) ∨ unprintable v.
Proof.
  destruct (py_str v) as [s|e] eqn:H; [eauto|].
  right. apply py_str_raises_iff. eauto.
Qed.

Lemma fragment_text_contributes t part :
  fragment_text t = Ok part ↔ contributes t part.
Proof.
  split.
  - destruct t; simpl; try (by intros H; apply contributes_scalar).
    destruct (d !! TEXT) as [v|] eqn:Hd; [|done].
    intros H. by eapply contributes_dict.
  - intros [d v p Hd Hv|t' p Hnd Hv]; simpl.
    + by rewrite Hd.
    + destruct t'; try done. by destruct (Hnd d).
Qed.

Lemma fragment_text_raises_iff t :
  (∃ e, fragment_text t = Raise e) ↔ bad_fragment t.
Proof.
  destruct t; try apply py_str_raises_iff. simpl.
  destruct (d !! TEXT) as [v|]; [apply py_str_raises_iff|].
  split; [done | eauto].
Qed.

Lemma comprehension_fragments l parts :
  comprehension fragment_text l = Ok parts ↔ Forall2 contributes l parts.
Proof.
  revert parts. induction l as [|t l IH]; intros parts; simpl.
  - split.
    + intros [= <-]. constructor.
    + intros H. by inversion H.
  - destruct (fragment_text t) as [part|e] eqn:Ht; simpl.
    + destruct (comprehension fragment_text l) as [ps|e] eqn:Hl; simpl.
      * split.
        -- intros [= <-]. constructor; [by apply fragment_text_contributes|].
           by apply IH.
        -- intros H. inversion H as [|? p ? ps' Hp Hps]; subst.
           apply fragment_text_contributes in Hp. apply IH in Hps.
           congruence.
      * split; [done|]. intros H.
        inversion H as [|? p ? ps' Hp Hps]; subst. by apply IH in Hps.
    + split; [done|]. intros H. inversion H as [|? p ? ps' Hp Hps]; subst.
      apply fragment_text_contributes in Hp. congruence.
Qed.

Lemma comprehension_raises_iff l :
  (∃ e, comprehension fragment_text l = Raise e) ↔ Exists bad_fragment l.
Proof.
  induction l as [|t l IH]; simpl.
  - split; [by intros [? ?] | by intros ?%Exists_nil].
  - rewrite Exists_cons, <- IH, <- fragment_text_raises_iff.
    destruct (fragment_text t) as [part|e]; simpl.
    + destruct (comprehension fragment_text l) as [ps|e]; simpl.
      * split; [by intros [? ?] | by intros [[? ?]|[? ?]]].
      * split; eauto.
    + split; eauto.
Qed.

Lemma clean_text_plain v :
  (∀ l, v ≠ JList l) → clean_text v = (s ← py_str v; Ok (clean_str s)).
Proof. intros H. destruct v; try done. by destruct (H l). Qed.

Lemma clean_text_list l :
  clean_text (JList l) =
  (parts ← comprehension fragment_text l; Ok (clean_str (concat parts))).
Proof.
  unfold clean_text. by destruct (comprehension fragment_text l).
Qed.

(** What [clean_text] returns: the cleaning of the string that the input
    gives. *)
Lemma clean_text_joined text y :
  clean_text text = Ok y ↔ ∃ whole, joined text whole ∧ y = clean_str whole.
Proof.
  assert ((∃ l, text = JList l) ∨ (∀ l, text ≠ JList l)) as [[l ->]|Hnl].
  { destruct text; eauto. }
  - rewrite clean_text_list.
    destruct (comprehension fragment_text l) as [parts|e] eqn:Hc; simpl.
    + apply comprehension_fragments in Hc. split.
      * intros [= <-]. exists (concat parts). split; [by constructor | done].
      * intros (whole & Hj & ->).
        inversion Hj as [? ps Hps|? ? Hnl]; subst; [|by destruct (Hnl l)].
        apply comprehension_fragments in Hc, Hps. congruence.
    + split; [done|]. intros (whole & Hj & ->).
      inversion Hj as [? ps Hps|? ? Hnl]; subst; [|by destruct (Hnl l)].
      apply comprehension_fragments in Hps. congruence.
  - rewrite clean_text_plain by done.
    destruct (py_str text) as [s|e] eqn:Hp; simpl.
    + split.
      * intros [= <-]. exists s. split; [by apply joined_plain | done].
      * intros (whole & Hj & ->).
        inversion Hj as [l ?|? ? _ Hs]; subst; [by destruct (Hnl l)|].
        congruence.
    + split; [done|]. intros (whole & Hj & ->).
      inversion Hj as [l ?|? ? _ Hs]; subst; [by destruct (Hnl l)|].
      congruence.
Qed.

(** When [clean_text] raises. *)
Lemma clean_text_raises_iff raw :
  (∃ e, clean_text raw = Raise e) ↔ bad_text raw.
Proof.
  assert ((∃ l, raw = JList l) ∨ (∀ l, raw ≠ JList l)) as [[l ->]|Hnl].
  { destruct raw; eauto. }
  - rewrite clean_text_list. simpl.
    rewrite <- comprehension_raises_iff.
    destruct (comprehension fragment_text l) as [parts|e]; simpl.
    + split; by intros [? ?].
    + split; eauto.
  - rewrite clean_text_plain by done.
    assert (bad_text raw ↔ unprintable raw) as ->.
    { destruct raw; try done. by destruct (Hnl l). }
    rewrite <- py_str_raises_iff.
    destruct (py_str raw) as [s|e]; simpl.
    + split; by intros [? ?].
    + split; eauto.
Qed.

Lemma clean_text_cases raw :
  (∃ text, clean_text raw = Ok text) ∨ bad_text raw.
Proof.
  destruct (clean_text raw) as [text|e] eqn:H; [eauto|].
  right. apply clean_text_raises_iff. eauto.
Qed.

Lemma text_fragment_contributes t :
  text_fragment t → ∃ part, contributes t part.
Proof.
  intros [Hs|(d & v & -> & Hd & Hv)].
  - destruct (py_str_scalar t Hs) as [s Hp]. exists s.
    apply contributes_scalar; [|done]. by intros d ->.
  - destruct (py_str_scalar v Hv) as [s Hp]. exists s.
    by eapply contributes_dict.
Qed.

Lemma text_value_joined text : text_value text → ∃ whole, joined text whole.
Proof.
  intros [Hs|(l & -> & Hall)].
  - destruct (py_str_scalar text Hs) as [s Hp]. exists s.
    apply joined_plain; [|done]. by intros l ->.
  - assert (∃ parts, Forall2 contributes l parts) as [parts Hparts].
    { induction Hall as [|t l Ht _ [parts IH]]; [by exists []|].
      destruct (text_fragment_contributes t Ht) as [part Hpart].
      exists (part :: parts). by constructor. }
    exists (concat parts). by constructor.
Qed.

(** C5 (amended).  On an input that the export format has for a text, be
    it a scalar (a string in particular) or a fragment list whose elements
    are scalars or dict-like fragments with a scalar under [text],
    [clean_text] raises nothing and returns a string: the cleaning of lines
    13-16 applied to the input itself (coerced with [str]) or to the
    concatenation, in order and without separator, of what the fragments
    contribute: the [str] of the [text] field for a dict-like fragment, the
    [str] of the fragment otherwise. *)
Theorem clean_text_returns (text : json) :
  text_value text →
  ∃ whole, joined text whole ∧ clean_text text = Ok (clean_str whole).
Proof.
  intros Htext. destruct (text_value_joined text Htext) as [whole Hj].
  exists whole. split; [done|]. apply clean_text_joined. eauto.
Qed.

Lemma clean_text_cleaned x y : clean_text x = Ok y → cleaned y.
Proof.
  intros (whole & _ & ->)%clean_text_joined. apply clean_str_cleaned.
Qed.

Lemma clean_text_fixed y : cleaned y → clean_text (JStr y) = Ok y.
Proof. intros Hy. unfold clean_text. simpl. by rewrite clean_str_id. Qed.

(** Idempotence on any input, a fragment list included: when the first
    application raises there is no result to apply the second to. *)
Lemma clean_text_twice (x : json) :
  (y ← clean_text x; clean_text (JStr y)) = clean_text x.
Proof.
  destruct (clean_text x) as [y|e] eqn:Hx; simpl; [|done].
  eauto using clean_text_fixed, clean_text_cleaned.
Qed.

(** C6.  For every string [x], [clean_text] returns a string [y], and
    [clean_text] applied to [y] returns [y] again. *)
Theorem clean_text_idempotent (x : pystr) :
  ∃ y, clean_text (JStr x) = Ok y ∧ clean_text (JStr y) = Ok y.
Proof.
  exists (clean_str x). split; [done|].
  apply clean_text_fixed, clean_str_cleaned.
Qed.

(** ** The extraction loop *)

Lemma foldM_app {S A} (body : S → A → result S) st l1 l2 :
  foldM body st (l1 ++ l2) = (st' ← foldM body st l1; foldM body st' l2).
Proof.
  revert st. induction l1 as [|a l1 IH]; intros st; simpl; [done|].
  destruct (body st a); simpl; [apply IH | done].
Qed.

Lemma run_messages_app file_path your_name data st l1 l2 :
  run_messages file_path your_name data st (l1 ++ l2) =
  (st' ← run_messages file_path your_name data st l1;
   run_messages file_path your_name data st' l2).
Proof. apply foldM_app. Qed.

Lemma run_messages_snoc file_path your_name data st l msg :
  run_messages file_path your_name data st (l ++ [msg]) =
  (st' ← run_messages file_path your_name data st l;
   loop_body file_path your_name data st' msg).
Proof.
  rewrite run_messages_app.
  destruct (run_messages file_path your_name data st l) as [st'|]; [|done].
  unfold run_messages, mbind, result_bind; simpl.
  by destruct (loop_body file_path your_name data st' msg).
Qed.

Lemma run_messages_step file_path your_name data st0 pre st msg :
  run_messages file_path your_name data st0 pre = Ok st →
  run_messages file_path your_name data st0 (pre ++ [msg]) =
  loop_body file_path your_name data st msg.
Proof. intros H. by rewrite run_messages_snoc, H. Qed.

Lemma eq_str_true v s : eq_str v s = true ↔ v = JStr s.
Proof.
  destruct v; simpl; try (split; done).
  rewrite bool_decide_eq_true. split; congruence.
Qed.

Lemma eq_str_false v s : eq_str v s = false ↔ v ≠ JStr s.
Proof.
  rewrite <- eq_str_true. destruct (eq_str v s); split; congruence.
Qed.

Lemma loop_body_survives file_path your_name data st msg sender text :
  survives msg sender text →
  loop_body file_path your_name data st msg =
  Ok (observe file_path your_name data st sender text).
Proof.
  intros [m raw t Hty Hraw Hclean Hign]. simpl.
  by rewrite Hty, Hraw, Hclean; simpl; rewrite Hign.
Qed.

Lemma survives_intro m raw text sender :
  eq_str (dict_get m TYPE) MESSAGE = true →
  m !! TEXT = Some raw →
  clean_text raw = Ok text →
  ignored text = false →
  sender = dict_get_default m FROM (JStr []) →
  survives (JDict m) sender text.
Proof. intros ???? ->. by econstructor. Qed.

Lemma incoming_intro your_name m raw text :
  eq_str (dict_get m TYPE) MESSAGE = true →
  m !! TEXT = Some raw →
  clean_text raw = Ok text →
  ignored text = false →
  eq_str (dict_get_default m FROM (JStr [])) your_name = false →
  incoming your_name (JDict m) text.
Proof.
  intros ???? Hne. eexists. split; [by econstructor|]. by apply eq_str_false.
Qed.

(** C1.  Let [st] be the state of the extractor after the entries [pre] of
    a chat log, and let [msg] be a surviving entry whose sender is the owner.
    If the window is empty, the state after [msg] is [st]: no pair, nothing
    changed.  If it is not, exactly one pair is appended, whose context is
    the window and whose response is the cleaned text, and the window is
    empty afterwards. *)
Theorem outgoing_entry_flushes_nonempty_window
    file_path your_name data pre msg text st :
  survives msg (JStr your_name) text →
  run_messages file_path your_name data (Extractor [] []) pre = Ok st →
  (current_context st = [] →
   run_messages file_path your_name data (Extractor [] []) (pre ++ [msg])
   = Ok st) ∧
  (current_context st ≠ [] →
   run_messages file_path your_name data (Extractor [] []) (pre ++ [msg])
   = Ok {| conversations :=
             conversations st ++
               [pair_of file_path data (current_context st) text];
           current_context := [] |}).
Proof.
  intros Hmsg Hpre. rewrite (run_messages_step _ _ _ _ _ _ _ Hpre).
  rewrite (loop_body_survives _ _ _ _ _ _ _ Hmsg). unfold observe.
  rewrite (proj2 (eq_str_true _ _) eq_refl).
  destruct (current_context st) eqn:Hctx; split; intros H; done.
Qed.

(** *** The window *)

Lemma append_context_last3 ctx text :
  (length ctx ≤ 3)%nat → append_context ctx text = last3 (ctx ++ [text]).
Proof.
  intros H. unfold append_context, last3. rewrite length_app. simpl.
  case_bool_decide as Hlen.
  - assert (length ctx = 3%nat) as -> by lia. simpl.
    by destruct ctx as [|? [|? [|? [|? ?]]]].
  - replace (length ctx + 1 - 3)%nat with 0%nat by lia. done.
Qed.

Lemma last3_length {A} (l : list A) : (length (last3 l) ≤ 3)%nat.
Proof. unfold last3. rewrite length_drop. lia. Qed.

Lemma last3_short {A} (l : list A) : (length l ≤ 3)%nat → last3 l = l.
Proof.
  intros H. unfold last3. by replace (length l - 3)%nat with 0%nat by lia.
Qed.

Lemma last3_app {A} (l r : list A) : last3 (last3 l ++ r) = last3 (l ++ r).
Proof.
  unfold last3. rewrite !length_app, length_drop.
  destruct (decide (length l ≤ 3)%nat) as [Hle|Hgt].
  - replace (length l - 3)%nat with 0%nat by lia. simpl.
    by rewrite Nat.sub_0_r.
  - replace (length l + length r - 3)%nat
      with ((length l - 3) + length r)%nat by lia.
    replace (length l - (length l - 3) + length r - 3)%nat
      with (length r) by lia.
    rewrite <- drop_drop. f_equal. rewrite drop_app_le by lia. done.
Qed.

Lemma append_context_length ctx text :
  (length ctx ≤ 3)%nat → (length (append_context ctx text) ≤ 3)%nat.
Proof. intros H. rewrite append_context_last3 by done. apply last3_length. Qed.

Lemma append_context_Forall (P : pystr → Prop) ctx text :
  Forall P ctx → P text → Forall P (append_context ctx text).
Proof.
  intros Hctx Ht. unfold append_context.
  assert (Forall P (ctx ++ [text])) as H by (apply Forall_app; auto).
  case_bool_decide; [|done].
  destruct (ctx ++ [text]); [done|]. simpl. by inversion H.
Qed.

(** The window after a run of appends: the last three of everything that
    was in it or was appended, in order. *)
Lemma fold_append_context ctx texts :
  (length ctx ≤ 3)%nat →
  fold_left append_context texts ctx = last3 (ctx ++ texts).
Proof.
  revert ctx. induction texts as [|t texts IH]; intros ctx H; simpl.
  - rewrite app_nil_r. by rewrite last3_short.
  - rewrite IH by by apply append_context_length.
    rewrite append_context_last3 by done. rewrite last3_app.
    by rewrite <- app_assoc.
Qed.

(** *** Invariants of the loop *)

Lemma foldM_invariant {S A} (P : S → Prop) (body : S → A → result S) l :
  (∀ st a st', P st → body st a = Ok st' → P st') →
  ∀ st st', P st → foldM body st l = Ok st' → P st'.
Proof.
  intros Hstep. induction l as [|a l IH]; intros st st' HP; simpl.
  - by intros [= <-].
  - destruct (body st a) as [st1|] eqn:Hb; simpl; [|done]. eauto.
Qed.

Lemma observe_ok file_path your_name data st sender text :
  extractor_ok file_path st → ignored text = false →
  extractor_ok file_path (observe file_path your_name data st sender text).
Proof.
  intros Hok Hign. unfold observe.
  destruct (eq_str sender your_name).
  - destruct (current_context st) as [|t ctx] eqn:Heq; [done|].
    destruct Hok as (Hlen & Hctx & Hconvs). rewrite Heq in Hlen, Hctx.
    split; [simpl; lia|]. split; [constructor|]. simpl.
    apply Forall_app. split; [done|]. constructor; [|constructor].
    repeat split; simpl in *; try done; lia.
  - destruct Hok as (Hlen & Hctx & Hconvs). split; [|split]; simpl;
      [|by apply append_context_Forall|done].
    by apply append_context_length.
Qed.

Lemma loop_body_cases file_path your_name data st msg st' :
  loop_body file_path your_name data st msg = Ok st' →
  st' = st ∨
  ∃ sender text, survives msg sender text ∧
                 st' = observe file_path your_name data st sender text.
Proof.
  destruct msg as [| | | | | |m]; try done. simpl.
  destruct (eq_str (dict_get m TYPE) MESSAGE) eqn:Hty; simpl;
    [|intros [= <-]; by left].
  destruct (m !! TEXT) as [raw|] eqn:Hraw; [|intros [= <-]; by left].
  destruct (clean_text raw) as [text|] eqn:Hclean; simpl; [|done].
  destruct (ignored text) eqn:Hign; intros [= <-]; [by left|].
  right. eexists _, text. split; [|done]. by econstructor.
Qed.

Lemma loop_body_ok file_path your_name data st msg st' :
  extractor_ok file_path st →
  loop_body file_path your_name data st msg = Ok st' →
  extractor_ok file_path st'.
Proof.
  intros Hok Hb. apply loop_body_cases in Hb as [->|(sender & text & Hs & ->)];
    [done|].
  apply observe_ok; [done|]. by destruct Hs.
Qed.

Lemma run_messages_ok file_path your_name data msgs st :
  run_messages file_path your_name data (Extractor [] []) msgs = Ok st →
  extractor_ok file_path st.
Proof.
  intros H.
  eapply (foldM_invariant (extractor_ok file_path)); [| |exact H].
  - intros ???. apply loop_body_ok.
  - split; [simpl; lia|]. split; constructor.
Qed.

(** A readable personal chat whose traversal raises nothing gives the
    pairs of the final state, and prints nothing. *)
Lemma process_chat_file_personal fs file_path your_name d msgs st :
  load_json fs file_path = Ok (JDict d) →
  personal_chat d →
  py_iter (dict_get_default d MESSAGES (JList [])) = Ok msgs →
  run_messages file_path your_name d (Extractor [] []) msgs = Ok st →
  process_chat_file fs file_path your_name = (conversations st, []).
Proof.
  intros Hload Hty Hit Hrun. unfold process_chat_file. rewrite Hload. simpl.
  apply eq_str_true in Hty.
  by rewrite Hty; simpl; rewrite Hit; simpl; rewrite Hrun.
Qed.

(** *** Appends *)

Lemma loop_body_incoming file_path your_name data st msg text :
  incoming your_name msg text →
  loop_body file_path your_name data st msg =
  Ok {| conversations := conversations st;
        current_context := append_context (current_context st) text |}.
Proof.
  intros (sender & Hs & Hne). rewrite (loop_body_survives _ _ _ _ _ _ _ Hs).
  unfold observe. by rewrite (proj2 (eq_str_false _ _) Hne).
Qed.

Lemma run_messages_incoming file_path your_name data msgs texts :
  Forall2 (incoming your_name) msgs texts →
  ∀ st,
  run_messages file_path your_name data st msgs =
  Ok {| conversations := conversations st;
        current_context :=
          fold_left append_context texts (current_context st) |}.
Proof.
  induction 1 as [|msg text msgs texts Hin _ IH]; intros st; simpl.
  - by destruct st.
  - unfold run_messages in *. simpl.
    rewrite (loop_body_incoming _ _ _ _ _ _ Hin). simpl. by rewrite IH.
Qed.

(** C2.  Let [st] be the state after the entries [pre] of a chat log, and
    let the log go on with surviving entries of the interlocutor only, whose
    cleaned texts are [texts] (appends, no flush).  Then no pair is emitted,
    the window has at most three elements, and it holds the last three (or
    fewer) of what it held followed by [texts], in that order: the oldest are
    evicted first.  From an empty window these are the last three of
    [texts]. *)
Theorem window_holds_last_three
    file_path your_name data pre st msgs texts :
  run_messages file_path your_name data (Extractor [] []) pre = Ok st →
  Forall2 (incoming your_name) msgs texts →
  ∃ st',
    run_messages file_path your_name data (Extractor [] []) (pre ++ msgs)
    = Ok st' ∧
    conversations st' = conversations st ∧
    current_context st' = last3 (current_context st ++ texts) ∧
    (current_context st = [] → current_context st' = last3 texts) ∧
    (length (current_context st') ≤ 3)%nat.
Proof.
  intros Hpre Hmsgs.
  destruct (run_messages_ok _ _ _ _ _ Hpre) as (Hlen & _ & _).
  rewrite run_messages_app, Hpre. simpl.
  rewrite (run_messages_incoming _ _ _ _ _ Hmsgs).
  eexists. split; [done|]. simpl. rewrite fold_append_context by done.
  repeat split.
  - by intros ->.
  - apply last3_length.
Qed.

(** *** The filter *)

Lemma ignored_true text :
  (length text < 2)%nat ∨ startswith text HTTP = true → ignored text = true.
Proof.
  unfold ignored. intros [H| ->]; [|apply orb_true_r].
  rewrite (bool_decide_eq_true_2 (length text < 2)%nat) by done.
  apply orb_true_iff. left. apply orb_true_r.
Qed.

Lemma loop_body_ignored file_path your_name data st msg text :
  cleans_to msg text → ignored text = true →
  loop_body file_path your_name data st msg = Ok st.
Proof.
  intros [m raw t Hty Hraw Hclean] Hign. simpl.
  by rewrite Hty, Hraw, Hclean; simpl; rewrite Hign.
Qed.

(** C3.  An entry whose cleaned text is shorter than two characters or
    starts with [http] is discarded.  The loop body leaves the state as it
    is; a chat log gives the same result with and without the entry; and
    after any log that contains the entry, its text is in no response, in no
    context and not in the window. *)
Theorem ignored_entry_is_discarded file_path your_name data msg text :
  cleans_to msg text →
  ((length text < 2)%nat ∨ startswith text HTTP = true) →
  (∀ st, loop_body file_path your_name data st msg = Ok st) ∧
  (∀ st pre post,
     run_messages file_path your_name data st (pre ++ msg :: post) =
     run_messages file_path your_name data st (pre ++ post)) ∧
  (∀ pre post st,
     run_messages file_path your_name data (Extractor [] [])
       (pre ++ msg :: post) = Ok st →
     (text ∉ current_context st) ∧
     (∀ c, c ∈ conversations st → response c ≠ text ∧ (text ∉ context c))).
Proof.
  intros Hmsg Hshort. pose proof (ignored_true _ Hshort) as Hign.
  assert (∀ st, loop_body file_path your_name data st msg = Ok st) as Hbody
    by (intros st; by eapply loop_body_ignored).
  split; [done|]. split.
  - intros st pre post. rewrite !run_messages_app.
    destruct (run_messages file_path your_name data st pre) as [st'|]; [|done].
    simpl. unfold run_messages. simpl. by rewrite Hbody.
  - intros pre post st Hrun.
    destruct (run_messages_ok _ _ _ _ _ Hrun) as (_ & Hctx & Hconvs).
    rewrite Forall_forall in Hctx. split.
    + intros Hin. apply Hctx in Hin. congruence.
    + intros c Hc. rewrite Forall_forall in Hconvs.
      destruct (Hconvs c Hc) as (_ & Hcc & Hr & _). split; [congruence|].
      intros Hin. rewrite Forall_forall in Hcc. apply Hcc in Hin. congruence.
Qed.

(** *** Entries without a sender *)

(** C10 (amended).  When the owner identity is not the empty string (the
    default owner is [Andrey]), a surviving entry that has no [from] key, or
    whose [from] is the empty string, has sender [''], which differs from the
    owner: after the entries [pre], its cleaned text is appended to the
    window and no pair is emitted. *)
Theorem entry_without_sender_is_appended
    file_path your_name data pre st m sender text :
  your_name ≠ [] →
  (m !! FROM = None ∨ m !! FROM = Some (JStr [])) →
  survives (JDict m) sender text →
  run_messages file_path your_name data (Extractor [] []) pre = Ok st →
  sender = JStr [] ∧
  run_messages file_path your_name data (Extractor [] []) (pre ++ [JDict m])
  = Ok {| conversations := conversations st;
          current_context := append_context (current_context st) text |}.
Proof.
  intros Hname Hfrom Hs Hpre.
  assert (sender = JStr []) as Hsender.
  { inversion Hs; subst. unfold dict_get_default.
    by destruct Hfrom as [-> | ->]. }
  split; [done|]. rewrite (run_messages_step _ _ _ _ _ _ _ Hpre).
  apply loop_body_incoming. exists sender. split; [done|].
  rewrite Hsender. congruence.
Qed.

(** ** Chats of another type, unreadable files and broken documents *)

Lemma loop_body_raises_iff file_path your_name data st msg :
  (∃ e, loop_body file_path your_name data st msg = Raise e) ↔ bad_entry msg.
Proof.
  split.
  - intros [e H]. destruct msg as [| | | | | |m];
      try (left; intros ? [=]; done).
    right. simpl in H.
    destruct (eq_str (dict_get m TYPE) MESSAGE) eqn:Hty; [|done]. simpl in H.
    destruct (m !! TEXT) as [raw|] eqn:Hraw; [|done].
    exists m, raw. split_and!; [done | by apply eq_str_true | done |].
    destruct (clean_text_cases raw) as [[text Ht]|Hbad]; [|done].
    rewrite Ht in H. simpl in H. by destruct (ignored text).
  - intros [Hno|(m & raw & -> & Hty & Hraw & Hbad)].
    + destruct msg; simpl; eauto. by destruct (Hno d).
    + simpl. apply eq_str_true in Hty. rewrite Hty, Hraw. simpl.
      apply clean_text_raises_iff in Hbad as [e ->]. simpl. eauto.
Qed.

Lemma foldM_raises_iff {S A} (body : S → A → result S) (bad : A → Prop) l :
  (∀ st a, (∃ e, body st a = Raise e) ↔ bad a) →
  ∀ st, (∃ e, foldM body st l = Raise e) ↔ Exists bad l.
Proof.
  intros Hbad. induction l as [|a l IH]; intros st; simpl.
  - split; [by intros [e ?] | by intros ?%Exists_nil].
  - rewrite Exists_cons. destruct (body st a) as [st'|e] eqn:Hb; simpl.
    + rewrite IH. split; [by right|]. intros [Ha|?]; [|done].
      apply Hbad with (st := st) in Ha as [e He]. congruence.
    + split; [|eauto]. intros _. left. apply (Hbad st). eauto.
Qed.

(** The traversal raises on the documents described by [untraversable]
    and on no other. *)
Lemma extract_raises_iff file_path your_name data :
  (∃ e, extract file_path your_name data = Raise e) ↔ untraversable data.
Proof.
  split.
  - intros [e H]. destruct data as [| | | | | |d];
      try (apply untraversable_document; intros ? [=]; done).
    simpl in H.
    destruct (eq_str (dict_get d TYPE) PERSONAL_CHAT) eqn:Hty; [|done].
    apply eq_str_true in Hty. simpl in H. unfold dict_get_default in H.
    destruct (d !! MESSAGES) as [v|] eqn:Hm; [|done].
    destruct v as [| | | |s|l|m]; simpl in H;
      try (eapply untraversable_messages_scalar; [done..| | |];
           intros ? [=]; done).
    + eapply untraversable_messages_string; [done..|]. by intros ->.
    + eapply untraversable_entry; [done..|].
      apply (foldM_raises_iff _ _ l
               (loop_body_raises_iff file_path your_name d) (Extractor [] [])).
      fold (run_messages file_path your_name d (Extractor [] []) l).
      destruct (run_messages file_path your_name d (Extractor [] []) l);
        [done | eauto].
    + eapply untraversable_messages_object; [done..|]. intros ->.
      by rewrite map_to_list_empty in H.
  - intros [doc Hno|d v Hty Hm Hl Hs Hd|d s Hty Hm Hs|d m Hty Hm Hne
           |d l Hty Hm Hbad].
    + destruct doc; simpl; eauto. by destruct (Hno d).
    + simpl. apply eq_str_true in Hty. rewrite Hty. simpl.
      unfold dict_get_default. rewrite Hm. simpl.
      destruct v as [| | | |s|l|m]; simpl; eauto;
        [by destruct (Hs s) | by destruct (Hl l) | by destruct (Hd m)].
    + simpl. apply eq_str_true in Hty. rewrite Hty. simpl.
      unfold dict_get_default. rewrite Hm. simpl.
      destruct s as [|c s]; [done|]. simpl. eauto.
    + simpl. apply eq_str_true in Hty. rewrite Hty. simpl.
      unfold dict_get_default. rewrite Hm. simpl.
      destruct (map_to_list m) as [|kv kvs] eqn:Hkv.
      * by apply map_to_list_empty_iff in Hkv.
      * simpl. eauto.
    + simpl. apply eq_str_true in Hty. rewrite Hty. simpl.
      unfold dict_get_default. rewrite Hm. simpl.
      apply (foldM_raises_iff _ _ l
               (loop_body_raises_iff file_path your_name d) (Extractor [] []))
        in Hbad as [e He].
      unfold run_messages. rewrite He. eauto.
Qed.

Lemma aggregate_step_conversations fs a name :
  all_conversations (aggregate_step fs a name) =
  all_conversations a ++ pairs_of fs name.
Proof.
  unfold aggregate_step, pairs_of, path_of.
  destruct (process_chat_file fs (CHATS_FOLDER ++ [SLASH] ++ name) ANDREY)
    as [[|c convs] evs]; simpl; [by rewrite app_nil_r | done].
Qed.

Lemma aggregate_step_total fs a name :
  total_files (aggregate_step fs a name) = S (total_files a).
Proof.
  unfold aggregate_step.
  by destruct (process_chat_file fs (CHATS_FOLDER ++ [SLASH] ++ name) ANDREY)
    as [[|c convs] evs].
Qed.

Lemma fold_aggregate_step fs names a :
  all_conversations (fold_left (aggregate_step fs) names a) =
  all_conversations a ++ concat (map (pairs_of fs) names) ∧
  total_files (fold_left (aggregate_step fs) names a) =
  (total_files a + length names)%nat.
Proof.
  revert a. induction names as [|name names IH]; intros a; simpl.
  - by rewrite app_nil_r, Nat.add_0_r.
  - destruct (IH (aggregate_step fs a name)) as [-> ->].
    rewrite aggregate_step_conversations, aggregate_step_total, <- app_assoc.
    split; [done | lia].
Qed.

Lemma aggregate_loop_corpus fs names :
  all_conversations (aggregate_loop fs names) = concat (map (pairs_of fs) names)
  ∧ total_files (aggregate_loop fs names) = length names.
Proof.
  unfold aggregate_loop.
  by destruct (fold_aggregate_step fs names (Aggregate [] 0 0 [])) as [-> ->].
Qed.

(** C4 (amended).  A chat log whose type is not [personal_chat] gives no
    pair, whatever its messages are.  A file that cannot be opened or
    parsed, and a document that the traversal raises on (one that is not an
    object; a personal chat whose [messages] is a number, a boolean,
    [null], a non-empty string or a non-empty object; a personal chat with
    an entry that is not an object or with a message text that [clean_text]
    raises on), give no pair either, and the failure is printed instead of
    raised.  Every other document, whatever else it has that the export
    format does not, is processed without a warning.  The aggregation loop
    goes through every file of the folder: its corpus is the concatenation
    of the pairs of the files, a file without pairs (a failed one among
    them) is counted in [total_files] and the files after it are processed
    as if it were not there. *)
Theorem other_chats_and_bad_files_yield_nothing
    (fs : filesystem) (file_path your_name : pystr) :
  (∀ d, load_json fs file_path = Ok (JDict d) → ¬ personal_chat d →
        process_chat_file fs file_path your_name = ([], [])) ∧
  (∀ e, load_json fs file_path = Raise e →
        process_chat_file fs file_path your_name
        = ([], [PrintError file_path e])) ∧
  (∀ data, load_json fs file_path = Ok data → untraversable data →
        ∃ e, process_chat_file fs file_path your_name
             = ([], [PrintError file_path e])) ∧
  (∀ data, load_json fs file_path = Ok data → ¬ untraversable data →
        ∃ convs, process_chat_file fs file_path your_name = (convs, [])) ∧
  (∀ names,
     all_conversations (aggregate_loop fs names)
     = concat (map (pairs_of fs) names) ∧
     total_files (aggregate_loop fs names) = length names) ∧
  (∀ before bad after, pairs_of fs bad = [] →
     all_conversations (aggregate_loop fs (before ++ bad :: after))
     = all_conversations (aggregate_loop fs (before ++ after)) ∧
     total_files (aggregate_loop fs (before ++ bad :: after))
     = S (total_files (aggregate_loop fs (before ++ after)))).
Proof.
  split_and!.
  - intros d Hload Hty. unfold process_chat_file. rewrite Hload. simpl.
    unfold personal_chat in Hty. apply eq_str_false in Hty. by rewrite Hty.
  - intros e Hload. unfold process_chat_file. by rewrite Hload.
  - intros data Hload Hbad. unfold process_chat_file. rewrite Hload. simpl.
    apply (extract_raises_iff file_path your_name) in Hbad as [e ->]. eauto.
  - intros data Hload Hgood. unfold process_chat_file. rewrite Hload. simpl.
    destruct (extract file_path your_name data) as [convs|e] eqn:He; [eauto|].
    destruct Hgood. apply (extract_raises_iff file_path your_name). eauto.
  - intros names. apply aggregate_loop_corpus.
  - intros before bad after H. split.
    + destruct (aggregate_loop_corpus fs (before ++ bad :: after)) as [-> _].
      destruct (aggregate_loop_corpus fs (before ++ after)) as [-> _].
      rewrite !map_app, !concat_app. simpl. by rewrite H.
    + destruct (aggregate_loop_corpus fs (before ++ bad :: after)) as [_ ->].
      destruct (aggregate_loop_corpus fs (before ++ after)) as [_ ->].
      rewrite !length_app. simpl. lia.
Qed.

(** ** Statistics *)

Lemma basename_from_no_slash cur p :
  SLASH ∉ p → basename_from cur p = reverse cur ++ p.
Proof.
  revert cur. induction p as [|c p IH]; intros cur Hp; simpl.
  - by rewrite app_nil_r.
  - apply not_elem_of_cons in Hp as [Hc Hp].
    destruct (N.eqb_spec c SLASH) as [->|_]; [done|].
    rewrite IH by done. by rewrite reverse_cons, <- app_assoc.
Qed.

Lemma basename_from_slash cur p q :
  basename_from cur (p ++ SLASH :: q) = basename_from [] q.
Proof.
  revert cur. induction p as [|c p IH]; intros cur; simpl; [done|].
  by destruct (c =? SLASH); rewrite IH.
Qed.

Lemma basename_path_of name : SLASH ∉ name → basename (path_of name) = name.
Proof.
  intros H. unfold basename, path_of. simpl app at 2.
  rewrite basename_from_slash. by rewrite basename_from_no_slash.
Qed.

Lemma process_chat_file_ok fs file_path your_name :
  Forall (pair_ok file_path) (process_chat_file fs file_path your_name).1.
Proof.
  unfold process_chat_file. destruct (load_json fs file_path) as [data|];
    simpl; [|constructor].
  destruct data as [| | | | | |d]; simpl; try constructor.
  destruct (eq_str (dict_get d TYPE) PERSONAL_CHAT); simpl; [|constructor].
  destruct (py_iter (dict_get_default d MESSAGES (JList []))) as [msgs|];
    simpl; [|constructor].
  destruct (run_messages file_path your_name d (Extractor [] []) msgs)
    as [st|] eqn:Hrun; simpl; [|constructor].
  by destruct (run_messages_ok _ _ _ _ _ Hrun) as (_ & _ & ?).
Qed.

Lemma pairs_of_source fs name :
  SLASH ∉ name → Forall (λ c, source_file c = name) (pairs_of fs name).
Proof.
  intros H. unfold pairs_of.
  eapply Forall_impl; [apply process_chat_file_ok|]. simpl.
  intros c (_ & _ & _ & ->). by apply basename_path_of.
Qed.

Lemma pairs_from_app f l1 l2 :
  pairs_from f (l1 ++ l2) = (pairs_from f l1 + pairs_from f l2)%nat.
Proof. unfold pairs_from. by rewrite filter_app, length_app. Qed.

Lemma pairs_from_same f l :
  Forall (λ c, source_file c = f) l → pairs_from f l = length l.
Proof.
  unfold pairs_from. induction 1 as [|c l Hc _ IH]; [done|].
  rewrite filter_cons_True by done. simpl. by rewrite IH.
Qed.

Lemma pairs_from_other f g l :
  f ≠ g → Forall (λ c, source_file c = g) l → pairs_from f l = 0%nat.
Proof.
  intros Hne. unfold pairs_from. induction 1 as [|c l Hc _ IH]; [done|].
  rewrite filter_cons_False by congruence. done.
Qed.

(** In the corpus of distinct file names, the pairs whose source is a
    given name are the pairs of that file. *)
Lemma pairs_from_corpus fs names f :
  NoDup names → Forall (λ name, SLASH ∉ name) names →
  pairs_from f (concat (map (pairs_of fs) names)) =
  if bool_decide (f ∈ names) then length (pairs_of fs f) else 0%nat.
Proof.
  induction 1 as [|name names Hnotin Hnd IH]; intros Hsl; simpl.
  - done.
  - apply Forall_cons in Hsl as [Hname Hsl]. rewrite pairs_from_app, IH by done.
    destruct (decide (f = name)) as [->|Hne].
    + rewrite (pairs_from_same name) by by apply pairs_of_source.
      rewrite (bool_decide_eq_false_2 (name ∈ names)) by done.
      rewrite (bool_decide_eq_true_2 (name ∈ name :: names)) by by left.
      lia.
    + rewrite (pairs_from_other f name) by (by try apply pairs_of_source).
      simpl. rewrite (bool_decide_ext (f ∈ name :: names) (f ∈ names)); [done|].
      rewrite elem_of_cons. split; [by intros [?|?] | by right].
Qed.

Lemma fold_stats_step corpus st0 :
  let st := fold_left stats_step corpus st0 in
  total_conversations st = total_conversations st0 ∧
  context_lengths st =
    context_lengths st0 ++ map (λ c, length (context c)) corpus ∧
  response_lengths st =
    response_lengths st0 ++ map (λ c, length (response c)) corpus ∧
  ∀ f, chat_sources st !! f =
       match pairs_from f corpus with
       | O => chat_sources st0 !! f
       | S _ => Some (default 0 (chat_sources st0 !! f) + pairs_from f corpus)
       end%nat.
Proof.
  revert st0. induction corpus as [|c corpus IH]; intros st0; simpl.
  - by rewrite !app_nil_r.
  - destruct (IH (stats_step st0 c)) as (-> & -> & -> & Hsrc). simpl.
    rewrite <- !app_assoc. split_and!; try done.
    intros f. rewrite Hsrc. unfold pairs_from at 3 4. simpl.
    destruct (decide (source_file c = f)) as [<-|Hne].
    + rewrite filter_cons_True by done. simpl.
      fold (pairs_from (source_file c) corpus). rewrite lookup_insert_eq. simpl.
      destruct (pairs_from (source_file c) corpus); f_equal; lia.
    + rewrite filter_cons_False by done. fold (pairs_from f corpus).
      by rewrite lookup_insert_ne.
Qed.

Lemma make_stats_fold a :
  let st := make_stats a in
  let corpus := all_conversations a in
  total_conversations st = length corpus ∧
  context_lengths st = map (λ c, length (context c)) corpus ∧
  response_lengths st = map (λ c, length (response c)) corpus ∧
  ∀ f, chat_sources st !! f =
       match pairs_from f corpus with
       | O => None
       | S n => Some (S n)
       end.
Proof.
  unfold make_stats.
  destruct (fold_stats_step (all_conversations a)
    {| total_conversations := length (all_conversations a);
       stat_processed_files := processed_files a;
       stat_total_files := total_files a;
       chat_sources := ∅;
       context_lengths := [];
       response_lengths := [] |}) as (H1 & H2 & H3 & H4).
  simpl in *. split_and!; try done.
  intros f. rewrite H4, lookup_empty. by destruct (pairs_from f _).
Qed.

(** What a run that got to the aggregation loop leaves: its counters are
    those of the loop; it writes statistics exactly when the corpus is not
    empty and both dumps return, and these are the statistics computed
    from the counters, written after the dataset. *)
Lemma create_training_dataset_inv fs r :
  create_training_dataset fs = Some r →
  counters r = aggregate_loop fs (glob_json fs CHATS_FOLDER) ∧
  (is_Some (dataset_statistics r) ↔
   all_conversations (counters r) ≠ [] ∧
   dump_dataset fs (all_conversations (counters r)) = Ok tt ∧
   dump_statistics fs (make_stats (counters r)) = Ok tt) ∧
  (∀ st, dataset_statistics r = Some st →
         st = make_stats (counters r) ∧
         training_dataset r = Some (all_conversations (counters r)) ∧
         failed_dump r = None).
Proof.
  unfold create_training_dataset. destruct (exists_ fs CHATS_FOLDER); [|done].
  simpl. set (a := aggregate_loop fs (glob_json fs CHATS_FOLDER)).
  destruct (all_conversations a) as [|c corpus] eqn:Hall.
  { intros [= <-]. simpl. rewrite Hall. split_and!; [done| |done].
    split; [by intros [? ?] | by intros [? _]]. }
  rewrite <- Hall.
  destruct (dump_dataset fs (all_conversations a)) as [[]|e] eqn:Hd.
  2: { intros [= <-]. simpl. rewrite Hd. split_and!; [done| |done].
       split; [by intros [? ?] | by intros (_ & ? & _)]. }
  destruct (dump_statistics fs (make_stats a)) as [[]|e] eqn:Hs.
  2: { intros [= <-]. simpl. rewrite Hs. split_and!; [done| |done].
       split; [by intros [? ?] | by intros (_ & _ & ?)]. }
  intros [= <-]. simpl. rewrite Hd, Hs, Hall. split_and!; [done| |].
  - split; [done | eauto].
  - by intros st [= <-].
Qed.

(** C8.  Let the chats folder hold files with distinct names.  The corpus
    of a run is the concatenation of the pairs of its files.  Statistics
    are written exactly when the corpus is not empty and the two output
    files can be written; they are then computed from the corpus alone,
    which has been written as the dataset: [total_conversations] is its
    length, [context_lengths] and [response_lengths] list the context
    length and the response length of each pair in corpus order, every
    context length is at most 3, and [chat_sources] maps a file name to the
    number of pairs whose source it is, which is the number of pairs
    extracted from that file (a name without pairs has no entry). *)
Theorem statistics_are_a_fold_of_the_corpus (fs : filesystem) (r : run) :
  NoDup (glob_json fs CHATS_FOLDER) →
  Forall (λ name, SLASH ∉ name) (glob_json fs CHATS_FOLDER) →
  create_training_dataset fs = Some r →
  let corpus := all_conversations (counters r) in
  corpus = concat (map (pairs_of fs) (glob_json fs CHATS_FOLDER)) ∧
  (is_Some (dataset_statistics r) ↔
   corpus ≠ [] ∧ dump_dataset fs corpus = Ok tt ∧
   dump_statistics fs (make_stats (counters r)) = Ok tt) ∧
  (∀ st, dataset_statistics r = Some st →
     training_dataset r = Some corpus ∧
     total_conversations st = length corpus ∧
     context_lengths st = map (λ c, length (context c)) corpus ∧
     Forall (λ n, 0 ≤ n ≤ 3)%nat (context_lengths st) ∧
     response_lengths st = map (λ c, length (response c)) corpus ∧
     (∀ f, chat_sources st !! f =
           match pairs_from f corpus with
           | O => None
           | S n => Some (S n)
           end) ∧
     (∀ name, name ∈ glob_json fs CHATS_FOLDER →
              pairs_from name corpus = length (pairs_of fs name)) ∧
     (∀ f, f ∉ glob_json fs CHATS_FOLDER → chat_sources st !! f = None)).
Proof.
  intros Hnd Hsl Hrun.
  destruct (create_training_dataset_inv fs r Hrun) as (Hc & Hiff & Hst).
  set (names := glob_json fs CHATS_FOLDER) in *.
  destruct (aggregate_loop_corpus fs names) as [Hcorpus _].
  rewrite <- Hc in Hcorpus.
  pose proof (make_stats_fold (counters r)) as Hstats.
  cbv zeta in Hstats. destruct Hstats as (Ht & Hcl & Hrl & Hs).
  cbv zeta. split; [done|]. split; [done|].
  intros st Hsome. destruct (Hst st Hsome) as (-> & Hds & _).
  assert (∀ f, pairs_from f (all_conversations (counters r)) =
               if bool_decide (f ∈ names)
               then length (pairs_of fs f) else 0%nat)
    as Hfrom.
  { intros f. rewrite Hcorpus. by apply pairs_from_corpus. }
  split_and!; try done.
  - rewrite Hcl. apply Forall_map. rewrite Hcorpus.
    apply Forall_concat, Forall_map, Forall_true. intros name. simpl.
    eapply Forall_impl; [apply process_chat_file_ok|]. simpl.
    intros c (Hlen & _). lia.
  - intros name Hin. rewrite Hfrom. by rewrite bool_decide_eq_true_2.
  - intros f Hnotin. rewrite Hs, Hfrom. by rewrite bool_decide_eq_false_2.
Qed.

(** ** The reply post-processor *)

Lemma startswith_spec s p : startswith s p = true ↔ ∃ r, s = p ++ r.
Proof.
  revert s. induction p as [|a p IH]; intros s; simpl.
  - split; [intros _; by exists s | done].
  - destruct s as [|b s]; [split; [done | by intros [? [=]]]|].
    rewrite andb_true_iff, N.eqb_eq, IH. split.
    + intros [-> [r ->]]. eauto.
    + intros [r [= -> ->]]. eauto.
Qed.

Lemma contains_spec m s : contains m s = true ↔ occurs m s.
Proof.
  unfold occurs. induction s as [|c s IH].
  - simpl. rewrite orb_false_r, startswith_spec. split.
    + intros [r Hr]. exists [], r. done.
    + intros (a & b & H). destruct a; [eauto|done].
  - cbn [contains]. rewrite orb_true_iff, IH, startswith_spec. split.
    + intros [[r ->]|(a & b & ->)]; [by exists [], r | by exists (c :: a), b].
    + intros (a & b & H). destruct a as [|c' a]; [left; eauto|].
      right. injection H as _ ->. eauto.
Qed.

Lemma split_from_cons a sep' cur c s' :
  split_from a sep' cur (c :: s') =
  if startswith (c :: s') (a :: sep')
  then reverse cur :: split_from a sep' [] (drop (length sep') s')
  else split_from a sep' (c :: cur) s'.
Proof.
  rewrite split_from_equation_2.
  by destruct (startswith (c :: s') (a :: sep')).
Qed.

(** Induction on the length of a string. *)
Lemma length_ind (P : pystr → Prop) :
  (∀ s, (∀ t, (length t < length s)%nat → P t) → P s) → ∀ s, P s.
Proof.
  intros H s. remember (length s) as n eqn:Hn.
  revert s Hn. induction (lt_wf n) as [n _ IH]. intros s ->.
  apply H. intros t Ht. by eapply IH.
Qed.

Lemma split_from_last_is_Some a sep' s :
  ∀ cur, is_Some (last (split_from a sep' cur s)).
Proof.
  induction s as [s IH] using length_ind. intros cur.
  destruct s as [|c s'].
  - rewrite split_from_equation_1. by eexists.
  - rewrite split_from_cons. destruct (startswith (c :: s') (a :: sep')).
    + rewrite last_cons.
      destruct (IH (drop (length sep') s')) with (cur := @nil N) as [x ->];
        [rewrite length_drop; simpl; lia | by eexists].
    + apply IH. simpl. lia.
Qed.

(** Without an occurrence of the separator there is one piece. *)
Lemma split_from_absent a sep' s :
  contains (a :: sep') s = false →
  ∀ cur, split_from a sep' cur s = [reverse cur ++ s].
Proof.
  induction s as [|c s IH]; intros Hno cur.
  - by rewrite split_from_equation_1, app_nil_r.
  - cbn [contains] in Hno. apply orb_false_iff in Hno as [Hst Hno].
    rewrite split_from_cons, Hst, IH by done.
    by rewrite reverse_cons, <- app_assoc.
Qed.

(** The self marker has no proper overlap with itself: an occurrence that
    begins inside another one is impossible. *)
Lemma self_marker_no_overlap a b :
  startswith (a ++ SELF_MARKER ++ b) SELF_MARKER = true →
  a = [] ∨ ∃ a', a = SELF_MARKER ++ a'.
Proof.
  intros H. destruct a as [|c1 [|c2 [|c3 [|c4 a']]]]; [by left|..];
    unfold SELF_MARKER in H; cbn [startswith app] in H;
    rewrite ?andb_true_iff, ?N.eqb_eq in H.
  - destruct H as (_ & H & _). discriminate H.
  - destruct H as (_ & _ & H & _). discriminate H.
  - destruct H as (_ & _ & _ & H & _). discriminate H.
  - destruct H as (<- & <- & <- & <- & _). right. by exists a'.
Qed.

Lemma split_from_self_marker s :
  ∀ cur a b,
  s = a ++ SELF_MARKER ++ b →
  contains SELF_MARKER b = false →
  last (split_from 1042 [1099; 58; 32] cur s) = Some b.
Proof.
  induction s as [s IH] using length_ind. intros cur a b Hs Hb.
  destruct s as [|c s']; [by destruct a|].
  rewrite split_from_cons.
  destruct (startswith (c :: s') [1042; 1099; 58; 32]) eqn:Hst.
  - rewrite last_cons. rewrite Hs in Hst.
    apply self_marker_no_overlap in Hst as [->|[a' ->]].
    + injection Hs as -> ->. simpl.
      rewrite (split_from_absent 1042 [1099; 58; 32]) by done. done.
    + injection Hs as -> ->. simpl.
      rewrite (IH (a' ++ SELF_MARKER ++ b)) with (a := a') (b := b);
        [done | | done | done].
      simpl. rewrite !length_app. simpl. lia.
  - destruct a as [|c' a'].
    + injection Hs as -> ->. done.
    + injection Hs as -> ->. eapply IH; [simpl; lia | done | done].
Qed.

Lemma last_occurrence_rest m s a b :
  last_occurrence m s a b → m ≠ [] → contains m b = false.
Proof.
  intros [-> Hmax] Hm. destruct (contains m b) eqn:Hc; [|done].
  apply contains_spec in Hc as (a' & b' & ->).
  specialize (Hmax (a ++ m ++ a') b').
  rewrite <- !app_assoc in Hmax. specialize (Hmax eq_refl).
  rewrite !length_app in Hmax. destruct m; [done|]. simpl in Hmax. lia.
Qed.

(** An occurrence implies a last one. *)
Lemma last_occurrence_exists m s :
  occurs m s → ∃ a b, last_occurrence m s a b.
Proof.
  induction s as [|c s IH]; intros Hocc.
  - destruct Hocc as (a & b & H). destruct a; [|done]. destruct m; [|done].
    exists [], []. split; [done|]. intros a' b' H'. by destruct a'.
  - destruct (contains m s) eqn:Hc.
    + apply contains_spec in Hc. destruct (IH Hc) as (a & b & -> & Hmax).
      exists (c :: a), b. split; [done|]. intros a' b' H'.
      destruct a' as [|c' a']; [simpl; lia|]. injection H' as _ H'.
      simpl. apply Hmax in H'. lia.
    + destruct Hocc as (a & b & H). destruct a as [|c' a].
      * exists [], b. split; [done|]. intros a' b' H'.
        destruct a' as [|c' a']; [done|]. injection H' as _ H'.
        assert (contains m s = true) by (apply contains_spec; by exists a', b').
        congruence.
      * injection H as _ ->.
        assert (contains m (a ++ m ++ b) = true)
          by (apply contains_spec; by exists a, b).
        congruence.
Qed.

(** C7.  [extract_reply] never raises and returns a string without
    whitespace at its ends.  When the self marker occurs in the decoded
    string it has a last occurrence, and the result is what follows that
    occurrence without the whitespace at its two ends; when it does not
    occur, the result is the whole string without the whitespace at its
    two ends. *)
Theorem extract_reply_after_last_marker (full_response : pystr) :
  (∃ reply, extract_reply full_response = Ok reply ∧ trimmed reply) ∧
  (occurs SELF_MARKER full_response →
   ∃ a b reply, last_occurrence SELF_MARKER full_response a b ∧
                extract_reply full_response = Ok reply ∧
                stripping b reply) ∧
  (∀ a b, last_occurrence SELF_MARKER full_response a b →
          ∃ reply, extract_reply full_response = Ok reply ∧
                   stripping b reply) ∧
  (¬ occurs SELF_MARKER full_response →
   ∃ reply, extract_reply full_response = Ok reply ∧
            stripping full_response reply).
Proof.
  assert (∀ a b, last_occurrence SELF_MARKER full_response a b →
                 extract_reply full_response = Ok (strip b)) as Hlast.
  { intros a b Hocc. unfold extract_reply.
    assert (contains SELF_MARKER full_response = true) as ->.
    { apply contains_spec. exists a, b. by destruct Hocc. }
    pose proof (last_occurrence_rest _ _ _ _ Hocc) as Hb.
    destruct Hocc as [Hs _]. simpl. unfold last_item.
    rewrite (split_from_self_marker full_response [] a b) by auto. done. }
  assert (¬ occurs SELF_MARKER full_response →
          extract_reply full_response = Ok (strip full_response)) as Hnone.
  { intros Hno. unfold extract_reply.
    destruct (contains SELF_MARKER full_response) eqn:Hc; [|done].
    by apply contains_spec in Hc. }
  split_and!.
  - destruct (contains SELF_MARKER full_response) eqn:Hc.
    + apply contains_spec, last_occurrence_exists in Hc as (a & b & Hocc).
      rewrite (Hlast a b Hocc). eauto using strip_trimmed.
    + rewrite Hnone; [eauto using strip_trimmed|].
      intros Hocc%contains_spec. congruence.
  - intros (a & b & Hocc)%last_occurrence_exists.
    exists a, b, (strip b). eauto using strip_stripping.
  - intros a b Hocc. exists (strip b). eauto using strip_stripping.
  - intros Hno. exists (strip full_response). eauto using strip_stripping.
Qed.

(** ** Generation failures *)

Lemma init_loaded path w g w' :
  init path w = (Ok g, w') → ∃ t m, tokenizer g = Some t ∧ model g = Some m.
Proof.
  unfold init.
  destruct (tokenizer_from_pretrained path w) as [[t|] w1]; [|done].
  destruct (model_from_pretrained path w1) as [[m|] w2]; [|done].
  intros [= <- _]. simpl. eauto.
Qed.

Lemma generate_response_returns
    g t m context_messages max_length temperature w :
  tokenizer g = Some t → model g = Some m →
  ∃ reply,
    generate_response g context_messages max_length temperature w =
    (Ok reply,
     (infer t m (dialog_text context_messages) max_length temperature w).2) ∧
    ((∃ e, (infer t m (dialog_text context_messages) max_length temperature w).1
           = Raise e) → reply = FALLBACK).
Proof.
  intros Ht Hm. unfold generate_response. rewrite Ht, Hm.
  destruct (infer t m (dialog_text context_messages) max_length temperature w)
    as [[full|e] w']; simpl.
  - destruct (extract_reply full) as [reply|]; eexists; (split; [done|]);
      by intros [? ?].
  - eexists. split; [done|]. done.
Qed.

Lemma generate_loop_returns g t m context_messages temperature indices :
  tokenizer g = Some t → model g = Some m →
  ∀ responses w, ∃ replies w',
    generate_loop g context_messages temperature indices responses w =
    (Ok (responses ++ replies), w') ∧
    length replies = length indices.
Proof.
  intros Ht Hm. induction indices as [|i rest IH]; intros responses w; simpl.
  - exists [], w. by rewrite app_nil_r.
  - destruct (generate_response_returns g t m context_messages 100
                (vary temperature i) w Ht Hm) as (reply & -> & _).
    destruct (IH (responses ++ [reply])
                (infer t m (dialog_text context_messages) 100
                   (vary temperature i) w).2) as (replies & w' & -> & Hlen).
    exists (reply :: replies), w'. rewrite <- app_assoc. simpl.
    split; [done | by rewrite Hlen].
Qed.

(** C9.  Let [g] be a generator that [init] has built, so that its model
    and tokenizer are loaded.  When the inference call raises,
    [generate_response] returns the fixed fallback string; it returns a
    string in every case.  [generate_multiple_responses] therefore returns,
    whatever samples fail, a list of as many strings as were requested. *)
Theorem generation_failure_is_recovered path w0 g w1 :
  init path w0 = (Ok g, w1) →
  ∃ t m,
    tokenizer g = Some t ∧ model g = Some m ∧
    (∀ context_messages max_length temperature w e w',
       infer t m (dialog_text context_messages) max_length temperature w
       = (Raise e, w') →
       generate_response g context_messages max_length temperature w
       = (Ok FALLBACK, w')) ∧
    (∀ context_messages max_length temperature w,
       ∃ reply w',
         generate_response g context_messages max_length temperature w
         = (Ok reply, w')) ∧
    (∀ context_messages num_responses temperature w,
       ∃ replies w',
         generate_multiple_responses g context_messages num_responses
           temperature w = (Ok replies, w') ∧
         length replies = Z.to_nat num_responses ∧
         (0 ≤ num_responses → Z.of_nat (length replies) = num_responses)%Z).
Proof.
  intros Hinit. destruct (init_loaded _ _ _ _ Hinit) as (t & m & Ht & Hm).
  exists t, m. split_and!; try done.
  - intros context_messages max_length temperature w e w' Hraise.
    destruct (generate_response_returns g t m context_messages max_length
                temperature w Ht Hm) as (reply & -> & Hfb).
    rewrite Hraise in *. simpl in *. rewrite Hfb; eauto.
  - intros context_messages max_length temperature w.
    destruct (generate_response_returns g t m context_messages max_length
                temperature w Ht Hm) as (reply & -> & _). eauto.
  - intros context_messages num_responses temperature w.
    unfold generate_multiple_responses.
    destruct (generate_loop_returns g t m context_messages temperature
                (seq 0 (Z.to_nat num_responses)) Ht Hm [] w)
      as (replies & w' & -> & Hlen).
    rewrite length_seq in Hlen. exists replies, w'. simpl.
    split_and!; [done | done | lia].
Qed.

(** * Further properties *)

(** ** [clean_text]: the shape of its result *)

Lemma single_spaced_whitespace b s :
  single_spaced b s → Forall (λ c, isspace c = true → c = SPACE) s.
Proof.
  revert b. induction s as [|c s IH]; intros b; simpl; [constructor|].
  destruct (isspace c) eqn:Hc.
  - intros (-> & _ & H). constructor; [done | eauto].
  - intros H. constructor; [congruence | eauto].
Qed.

Lemma single_spaced_no_double b l1 l2 :
  ¬ single_spaced b (l1 ++ SPACE :: SPACE :: l2).
Proof.
  intros H. apply single_spaced_app_r in H. simpl in H.
  destruct H as (_ & _ & _ & H & _). discriminate H.
Qed.

(** X1.  Whatever the input, a string returned by [clean_text] has only
    word characters, the nine punctuation marks and plain spaces; it has no
    other whitespace, no two spaces in a row, and no space at either end. *)
Theorem clean_text_result_shape (x : json) (y : pystr) :
  clean_text x = Ok y →
  Forall (λ c, c = SPACE ∨
               (isspace c = false ∧ (isword c = true ∨ ispunct c = true))) y ∧
  (∀ l1 l2, y ≠ l1 ++ SPACE :: SPACE :: l2) ∧
  head y ≠ Some SPACE ∧ last y ≠ Some SPACE.
Proof.
  intros (Hk & Hsp & Hh & Hl)%clean_text_cleaned.
  pose proof (single_spaced_whitespace _ _ Hsp) as Hws.
  split_and!.
  - rewrite Forall_forall in Hk, Hws. apply Forall_forall. intros c Hc.
    destruct (isspace c) eqn:Hs; [left; by apply Hws|]. right. split; [done|].
    specialize (Hk c Hc). unfold keep in Hk. rewrite Hs, orb_false_r in Hk.
    by apply orb_true_iff in Hk.
  - intros l1 l2 ->. by apply single_spaced_no_double in Hsp.
  - intros H. by apply Hh in H.
  - intros H. by apply Hl in H.
Qed.

Lemma drop_while_length p s : (length (drop_while p s) ≤ length s)%nat.
Proof.
  induction s as [|c s IH]; simpl; [done|]. destruct (p c); simpl; lia.
Qed.

Lemma strip_length s : (length (strip s) ≤ length s)%nat.
Proof.
  unfold strip, rstrip, lstrip. rewrite length_reverse.
  etrans; [apply drop_while_length|]. rewrite length_reverse.
  apply drop_while_length.
Qed.

Lemma sub_spaces_from_length b s :
  (length (sub_spaces_from b s) ≤ length s)%nat.
Proof.
  revert b. induction s as [|c s IH]; intros b; simpl; [done|].
  pose proof (IH true). pose proof (IH false).
  destruct (isspace c); [destruct b|]; simpl; lia.
Qed.

Lemma clean_str_length s : (length (clean_str s) ≤ length s)%nat.
Proof.
  unfold clean_str, sub_spaces. etrans; [apply strip_length|].
  etrans; [apply sub_spaces_from_length|]. unfold sub_special.
  by rewrite length_map.
Qed.

Lemma drop_while_nil p s :
  drop_while p s = [] ↔ Forall (λ c, p c = true) s.
Proof.
  induction s as [|c s IH]; simpl; [split; [constructor | done]|].
  destruct (p c) eqn:Hc.
  - rewrite IH. split; [by constructor | by inversion 1].
  - split; [done|]. inversion 1; congruence.
Qed.

Lemma strip_nil s : strip s = [] ↔ Forall (λ c, isspace c = true) s.
Proof.
  split.
  - intros H. destruct (strip_split s) as (l & r & Hs & Hl & Hr).
    rewrite H in Hs. rewrite Hs. simpl. by apply Forall_app.
  - intros H. unfold strip, lstrip. by rewrite (proj2 (drop_while_nil _ _) H).
Qed.

Lemma sub_spaces_from_whitespace b s :
  Forall (λ c, isspace c = true) (sub_spaces_from b s) ↔
  Forall (λ c, isspace c = true) s.
Proof.
  revert b. induction s as [|c s IH]; intros b; simpl; [done|].
  destruct (isspace c) eqn:Hc.
  - destruct b.
    + rewrite IH. split; [by constructor | by inversion 1].
    + rewrite !Forall_cons, IH. split; intros [_ H]; by split.
  - by rewrite !Forall_cons, IH.
Qed.

Lemma sub_special_whitespace s :
  Forall (λ c, isspace c = true) (sub_special s) ↔
  Forall (λ c, isspace c = true ∨ keep c = false) s.
Proof.
  unfold sub_special. rewrite Forall_map. apply Forall_iff. intros c. simpl.
  destruct (keep c) eqn:Hk.
  - split; [by left | by intros [?|?]].
  - split; [by right | done].
Qed.

(** X2.  Cleaning a string never makes it longer. *)
Theorem clean_text_never_longer (s : pystr) :
  ∃ y, clean_text (JStr s) = Ok y ∧ (length y ≤ length s)%nat.
Proof. exists (clean_str s). split; [done | apply clean_str_length]. Qed.

(** X3.  The cleaning of a string is empty exactly when the string has no
    word character and no punctuation mark of the class: every character
    is whitespace or is one of those that line 13 replaces. *)
Theorem clean_text_empty_iff (s : pystr) :
  clean_text (JStr s) = Ok [] ↔
  Forall (λ c, isspace c = true ∨ keep c = false) s.
Proof.
  rewrite <- sub_special_whitespace, <- (sub_spaces_from_whitespace false).
  rewrite <- strip_nil.
  change (clean_text (JStr s)) with (Ok (clean_str s)).
  unfold clean_str, sub_spaces. split; [by intros [=] | by intros ->].
Qed.

(** ** [process_chat_file]: what it writes, what it skips *)

Lemma ignored_false text :
  ignored text = false → (2 ≤ length text)%nat ∧ startswith text HTTP = false.
Proof.
  unfold ignored. intros H. apply orb_false_iff in H as [H Hhttp].
  apply orb_false_iff in H as [_ Hlen]. apply bool_decide_eq_false in Hlen.
  split; [lia | done].
Qed.

Lemma survives_text_ok msg sender text :
  survives msg sender text → text_ok text.
Proof.
  intros [m raw t _ _ Hclean Hign]. split; [by eapply clean_text_cleaned|].
  by apply ignored_false.
Qed.

Lemma observe_schema file_path your_name data st sender text :
  extractor_schema file_path data st → text_ok text →
  extractor_schema file_path data
    (observe file_path your_name data st sender text).
Proof.
  intros Hok Ht. unfold observe. destruct (eq_str sender your_name).
  - destruct (current_context st) as [|t ctx] eqn:Heq; [done|].
    destruct Hok as (Hlen & Hctx & Hconvs). rewrite Heq in Hlen, Hctx.
    split; [simpl; lia|]. split; [constructor|]. simpl.
    apply Forall_app. split; [done|]. constructor; [|constructor].
    split_and!; simpl in *; try done; lia.
  - destruct Hok as (Hlen & Hctx & Hconvs). split; [|split]; simpl;
      [by apply append_context_length|by apply append_context_Forall|done].
Qed.

Lemma run_messages_schema file_path your_name data msgs st :
  run_messages file_path your_name data (Extractor [] []) msgs = Ok st →
  extractor_schema file_path data st.
Proof.
  intros H.
  eapply (foldM_invariant (extractor_schema file_path data)); [| |exact H].
  - intros st1 msg st2 Hok Hb.
    apply loop_body_cases in Hb as [->|(sender & text & Hs & ->)]; [done|].
    apply observe_schema; [done|]. by eapply survives_text_ok.
  - split; [simpl; lia|]. split; constructor.
Qed.

(** A returned pair was emitted by the loop over a readable personal
    chat. *)
Lemma process_chat_file_elem
    (fs : filesystem) (file_path your_name : pystr) (c : conversation) :
  c ∈ (process_chat_file fs file_path your_name).1 →
  ∃ d msgs st,
    load_json fs file_path = Ok (JDict d) ∧ personal_chat d ∧
    run_messages file_path your_name d (Extractor [] []) msgs = Ok st ∧
    c ∈ conversations st.
Proof.
  unfold process_chat_file. destruct (load_json fs file_path) as [data|];
    simpl; [|by intros ?%elem_of_nil].
  destruct data as [| | | | | |d]; simpl; try by intros ?%elem_of_nil.
  destruct (eq_str (dict_get d TYPE) PERSONAL_CHAT) eqn:Hty; simpl;
    [|by intros ?%elem_of_nil].
  destruct (py_iter (dict_get_default d MESSAGES (JList []))) as [msgs|];
    simpl; [|by intros ?%elem_of_nil].
  destruct (run_messages file_path your_name d (Extractor [] []) msgs)
    as [st|] eqn:Hrun; simpl; [|by intros ?%elem_of_nil].
  intros Hc. exists d, msgs, st. split_and!; try done. by apply eq_str_true.
Qed.

(** X4.  Every pair that [process_chat_file] returns comes from a readable
    chat of type [personal_chat], and follows one schema: a context of one
    to three texts, each of them and the response a cleaned text of at
    least two characters that does not start with [http], the base name of
    the path as source file, and the [name] of the chat (or [Unknown]) as
    chat name. *)
Theorem process_chat_file_schema
    (fs : filesystem) (file_path your_name : pystr) (c : conversation) :
  c ∈ (process_chat_file fs file_path your_name).1 →
  ∃ d, load_json fs file_path = Ok (JDict d) ∧ personal_chat d ∧
       pair_schema file_path d c.
Proof.
  intros (d & msgs & st & Hload & Hty & Hrun & Hc)%process_chat_file_elem.
  exists d. split; [done|]. split; [done|].
  destruct (run_messages_schema _ _ _ _ _ Hrun) as (_ & _ & Hall).
  rewrite Forall_forall in Hall. by apply Hall.
Qed.

Lemma loop_body_skipped file_path your_name data st msg :
  skipped_entry msg → loop_body file_path your_name data st msg = Ok st.
Proof.
  intros (m & -> & [Hty|Htext]); simpl.
  - apply eq_str_false in Hty. by rewrite Hty.
  - rewrite Htext. by destruct (eq_str (dict_get m TYPE) MESSAGE).
Qed.

(** X5.  An entry that is not of type [message] (a service entry), or that
    has no [text], changes nothing: the window is left as it is, and the
    log gives the same result with and without the entry, wherever it
    stands. *)
Theorem skipped_entry_changes_nothing file_path your_name data msg :
  skipped_entry msg →
  ∀ st pre post,
    run_messages file_path your_name data st (pre ++ msg :: post) =
    run_messages file_path your_name data st (pre ++ post).
Proof.
  intros Hmsg st pre post. rewrite !run_messages_app.
  destruct (run_messages file_path your_name data st pre) as [st'|]; [|done].
  simpl. unfold run_messages. simpl. by rewrite loop_body_skipped.
Qed.

Lemma loop_body_count file_path your_name data st msg st' :
  loop_body file_path your_name data st msg = Ok st' →
  (2 * length (conversations st') +
     (if current_context st' is [] then 0 else 1)
   ≤ 2 * length (conversations st) +
     (if current_context st is [] then 0 else 1) + 1)%nat.
Proof.
  intros [->|(sender & text & _ & ->)]%loop_body_cases; [lia|].
  unfold observe. destruct (eq_str sender your_name).
  - destruct (current_context st) eqn:Hctx; simpl.
    + rewrite Hctx. lia.
    + rewrite length_app. simpl. lia.
  - simpl. destruct (append_context (current_context st) text);
      destruct (current_context st); lia.
Qed.

Lemma run_messages_count file_path your_name data msgs :
  ∀ st st',
  run_messages file_path your_name data st msgs = Ok st' →
  (2 * length (conversations st') +
     (if current_context st' is [] then 0 else 1)
   ≤ 2 * length (conversations st) +
     (if current_context st is [] then 0 else 1) + length msgs)%nat.
Proof.
  unfold run_messages.
  induction msgs as [|msg msgs IH]; intros st st'; simpl.
  - intros [= <-]. lia.
  - destruct (loop_body file_path your_name data st msg) as [st1|] eqn:Hb;
      simpl; [|done].
    intros H%IH. apply loop_body_count in Hb. simpl in *. lia.
Qed.

(** X6.  A pair takes at least two entries of the log, a message of the
    interlocutor and the answer to it: after [n] entries there are at most
    [n / 2] pairs, and one fewer entry is left for them when the window is
    not empty. *)
Theorem pairs_take_two_entries file_path your_name data msgs st :
  run_messages file_path your_name data (Extractor [] []) msgs = Ok st →
  (2 * length (conversations st) +
     (if current_context st is [] then 0 else 1) ≤ length msgs)%nat.
Proof. intros H%run_messages_count. simpl in H. lia. Qed.

Lemma loop_body_prefix file_path your_name data st msg st' :
  loop_body file_path your_name data st msg = Ok st' →
  conversations st `prefix_of` conversations st'.
Proof.
  intros [->|(sender & text & _ & ->)]%loop_body_cases; [done|].
  unfold observe. destruct (eq_str sender your_name); [|done].
  destruct (current_context st) as [|t ctx]; [done|]. simpl.
  by exists [pair_of file_path data (t :: ctx) text].
Qed.

(** X7.  Pairs are only ever appended: what has been emitted after a part
    of the log is still there, unchanged and in the same place, after any
    continuation that does not raise. *)
Theorem emitted_pairs_are_kept file_path your_name data pre post st st' :
  run_messages file_path your_name data (Extractor [] []) pre = Ok st →
  run_messages file_path your_name data (Extractor [] []) (pre ++ post)
  = Ok st' →
  conversations st `prefix_of` conversations st'.
Proof.
  intros Hpre. rewrite run_messages_app, Hpre. simpl. clear Hpre.
  revert st. unfold run_messages.
  induction post as [|msg post IH]; intros st; simpl.
  - by intros [= <-].
  - destruct (loop_body file_path your_name data st msg) as [st1|] eqn:Hb;
      simpl; [|done].
    intros H%IH. etrans; [by eapply loop_body_prefix | done].
Qed.

(** ** [create_training_dataset]: how its numbers hang together *)

Lemma sum_counts_insert (m : gmap pystr nat) k n :
  (sum_counts (<[k:=n]> m) + default 0 (m !! k) = n + sum_counts m)%nat.
Proof.
  unfold sum_counts. destruct (m !! k) as [old|] eqn:Hk; simpl.
  - rewrite <- insert_delete_eq.
    rewrite map_fold_insert_L; [|intros; lia|apply lookup_delete_eq].
    rewrite (map_fold_delete_L _ _ k old m); [lia|intros; lia|done].
  - rewrite map_fold_insert_L; [lia|intros; lia|done].
Qed.

Lemma fold_stats_step_sum corpus st0 :
  sum_counts (chat_sources (fold_left stats_step corpus st0))
  = (sum_counts (chat_sources st0) + length corpus)%nat.
Proof.
  revert st0. induction corpus as [|c corpus IH]; intros st0; simpl; [lia|].
  rewrite IH. simpl.
  pose proof (sum_counts_insert (chat_sources st0) (source_file c)
                (default 0 (chat_sources st0 !! source_file c) + 1)%nat).
  lia.
Qed.

(** X8.  In the statistics that a run writes, the counts of [chat_sources]
    add up to [total_conversations]: every pair is counted for exactly one
    source. *)
Theorem chat_sources_add_up (fs : filesystem) (r : run) (st : statistics) :
  create_training_dataset fs = Some r →
  dataset_statistics r = Some st →
  sum_counts (chat_sources st) = total_conversations st ∧
  total_conversations st = length (all_conversations (counters r)).
Proof.
  intros Hrun Hst.
  destruct (create_training_dataset_inv fs r Hrun) as (_ & _ & Hinv).
  destruct (Hinv st Hst) as (-> & _ & _).
  destruct (make_stats_fold (counters r)) as (Ht & _). cbv zeta in Ht.
  split; [|done]. rewrite Ht. unfold make_stats.
  rewrite fold_stats_step_sum. simpl. unfold sum_counts.
  by rewrite map_fold_empty.
Qed.

Lemma aggregate_step_processed fs a name :
  processed_files (aggregate_step fs a name) =
  (processed_files a +
   length (filter (λ n, (0 < length (pairs_of fs n))%nat) [name]))%nat.
Proof.
  assert (pairs_of fs name
          = (process_chat_file fs (CHATS_FOLDER ++ [SLASH] ++ name) ANDREY).1)
    as Hp by reflexivity.
  unfold aggregate_step.
  destruct (process_chat_file fs (CHATS_FOLDER ++ [SLASH] ++ name) ANDREY)
    as [[|c convs] evs]; cbn [processed_files].
  - rewrite filter_cons_False, filter_nil by (rewrite Hp; simpl; lia).
    simpl. lia.
  - rewrite filter_cons_True, filter_nil by (rewrite Hp; simpl; lia).
    simpl. lia.
Qed.

Lemma fold_aggregate_step_processed fs names a :
  processed_files (fold_left (aggregate_step fs) names a) =
  (processed_files a + length (productive fs names))%nat.
Proof.
  unfold productive. revert a.
  induction names as [|name names IH]; intros a; simpl; [lia|].
  rewrite IH, aggregate_step_processed.
  change (name :: names) with ([name] ++ names). rewrite filter_app, length_app.
  lia.
Qed.

Lemma aggregate_loop_processed fs names :
  processed_files (aggregate_loop fs names) = length (productive fs names).
Proof. unfold aggregate_loop. by rewrite fold_aggregate_step_processed. Qed.

Lemma chat_sources_dom fs names :
  NoDup names → Forall (λ name, SLASH ∉ name) names →
  dom (chat_sources (make_stats (aggregate_loop fs names)))
  = list_to_set (productive fs names).
Proof.
  intros Hnd Hsl. apply set_eq. intros f.
  rewrite elem_of_dom, elem_of_list_to_set. unfold productive.
  rewrite list_elem_of_filter.
  destruct (make_stats_fold (aggregate_loop fs names)) as (_ & _ & _ & Hsrc).
  cbv zeta in Hsrc. rewrite Hsrc.
  destruct (aggregate_loop_corpus fs names) as [-> _].
  rewrite pairs_from_corpus by done. case_bool_decide as Hin.
  - destruct (length (pairs_of fs f)) eqn:Hlen.
    + split; [by intros [? ?] | intros [? _]; lia].
    + split; [intros _; split; [lia | done] | by eexists].
  - split; [by intros [? ?] | by intros [_ ?]].
Qed.

Lemma fold_stats_step_files corpus st0 :
  stat_processed_files (fold_left stats_step corpus st0)
  = stat_processed_files st0.
Proof.
  revert st0. induction corpus as [|c corpus IH]; intros st0; simpl; [done|].
  by rewrite IH.
Qed.

(** X9.  Let the chats folder hold files with distinct names.  Then
    [processed_files] is the number of files that gave at least one pair,
    it is at most [total_files], and in the statistics it is also the
    number of entries of [chat_sources]. *)
Theorem processed_files_counts_sources (fs : filesystem) (r : run) :
  NoDup (glob_json fs CHATS_FOLDER) →
  Forall (λ name, SLASH ∉ name) (glob_json fs CHATS_FOLDER) →
  create_training_dataset fs = Some r →
  processed_files (counters r)
  = length (productive fs (glob_json fs CHATS_FOLDER)) ∧
  (processed_files (counters r) ≤ total_files (counters r))%nat ∧
  (∀ st, dataset_statistics r = Some st →
         size (chat_sources st) = stat_processed_files st).
Proof.
  intros Hnd Hsl Hrun.
  destruct (create_training_dataset_inv fs r Hrun) as (Hc & _ & Hinv).
  set (names := glob_json fs CHATS_FOLDER) in *.
  assert (processed_files (aggregate_loop fs names)
          = length (productive fs names)) as Hp
    by apply aggregate_loop_processed.
  assert (length (productive fs names)
          ≤ total_files (aggregate_loop fs names))%nat as Hle.
  { destruct (aggregate_loop_corpus fs names) as [_ ->].
    unfold productive. apply length_filter. }
  assert (size (chat_sources (make_stats (aggregate_loop fs names)))
          = processed_files (aggregate_loop fs names)) as Hsize.
  { rewrite <- size_dom, chat_sources_dom by done.
    rewrite size_list_to_set by (unfold productive; by apply NoDup_filter).
    done. }
  rewrite Hc. split; [done|]. split; [lia|].
  intros st Hst. destruct (Hinv st Hst) as (-> & _ & _).
  rewrite Hc, Hsize. unfold make_stats. by rewrite fold_stats_step_files.
Qed.

Lemma concat_map_Permutation {A B} (f : A → list B) l l' :
  l ≡ₚ l' → concat (map f l) ≡ₚ concat (map f l').
Proof.
  induction 1 as [|x l l' _ IH|x y l|l l' l'' _ IH _ IH']; simpl.
  - done.
  - by rewrite IH.
  - rewrite !app_assoc. f_equiv. apply Permutation_app_comm.
  - by etrans.
Qed.

(** X10.  The order in which the folder lists its files (distinct names)
    does not matter for the numbers: the corpus is the same up to the order
    of the files, and [total_files], [processed_files],
    [total_conversations] and the whole of [chat_sources] are the same. *)
Theorem file_order_does_not_matter
    (fs : filesystem) (names names' : list pystr) :
  names ≡ₚ names' →
  NoDup names → Forall (λ name, SLASH ∉ name) names →
  all_conversations (aggregate_loop fs names)
    ≡ₚ all_conversations (aggregate_loop fs names') ∧
  total_files (aggregate_loop fs names)
  = total_files (aggregate_loop fs names') ∧
  processed_files (aggregate_loop fs names)
  = processed_files (aggregate_loop fs names') ∧
  total_conversations (make_stats (aggregate_loop fs names))
  = total_conversations (make_stats (aggregate_loop fs names')) ∧
  chat_sources (make_stats (aggregate_loop fs names))
  = chat_sources (make_stats (aggregate_loop fs names')).
Proof.
  intros Hperm Hnd Hsl.
  assert (NoDup names') as Hnd' by by rewrite <- Hperm.
  assert (Forall (λ name, SLASH ∉ name) names') as Hsl' by by rewrite <- Hperm.
  destruct (aggregate_loop_corpus fs names) as [Hc Ht].
  destruct (aggregate_loop_corpus fs names') as [Hc' Ht'].
  assert (all_conversations (aggregate_loop fs names)
            ≡ₚ all_conversations (aggregate_loop fs names')) as Hcorpus.
  { rewrite Hc, Hc'. by apply concat_map_Permutation. }
  split_and!.
  - done.
  - by rewrite Ht, Ht', Hperm.
  - rewrite !aggregate_loop_processed. unfold productive. by rewrite Hperm.
  - destruct (make_stats_fold (aggregate_loop fs names)) as (-> & _).
    destruct (make_stats_fold (aggregate_loop fs names')) as (-> & _).
    by rewrite Hcorpus.
  - apply map_eq. intros f.
    destruct (make_stats_fold (aggregate_loop fs names)) as (_ & _ & _ & ->).
    destruct (make_stats_fold (aggregate_loop fs names')) as (_ & _ & _ & ->).
    rewrite Hc, Hc', !pairs_from_corpus by done.
    by rewrite (bool_decide_ext (f ∈ names) (f ∈ names')) by by rewrite Hperm.
Qed.

(** ** Replies *)

Lemma occurs_segment m l s r : occurs m s → occurs m (l ++ s ++ r).
Proof.
  intros (a & b & ->). exists (l ++ a), (b ++ r). by rewrite <- !app_assoc.
Qed.

Lemma contains_strip m s :
  contains m s = false → contains m (strip s) = false.
Proof.
  intros Hno. destruct (contains m (strip s)) eqn:Hc; [|done].
  apply contains_spec in Hc. destruct (strip_split s) as (l & r & Hs & _).
  apply (occurs_segment m l _ r) in Hc. rewrite <- Hs in Hc.
  apply contains_spec in Hc. congruence.
Qed.

Lemma contains_app_marker a b :
  contains SELF_MARKER (a ++ SELF_MARKER ++ b) = true.
Proof. apply contains_spec. by exists a, b. Qed.

Lemma extract_reply_after a b :
  contains SELF_MARKER b = false →
  extract_reply (a ++ SELF_MARKER ++ b) = Ok (strip b).
Proof.
  intros Hb. unfold extract_reply. rewrite contains_app_marker.
  remember (a ++ SELF_MARKER ++ b) as s eqn:Hs. simpl. unfold last_item.
  by rewrite (split_from_self_marker s [] a b).
Qed.

(** The result is the stripping of a part of the input that does not
    contain the marker. *)
Lemma extract_reply_cases s :
  ∃ t, contains SELF_MARKER t = false ∧ extract_reply s = Ok (strip t).
Proof.
  destruct (contains SELF_MARKER s) eqn:Hc.
  - apply contains_spec, last_occurrence_exists in Hc as (a & b & Hocc).
    exists b. pose proof (last_occurrence_rest _ _ _ _ Hocc) as Hb.
    destruct Hocc as [-> _]. split; [by apply Hb|].
    apply extract_reply_after. by apply Hb.
  - exists s. split; [done|]. unfold extract_reply. by rewrite Hc.
Qed.

Lemma extract_reply_fixed r :
  trimmed r → contains SELF_MARKER r = false → extract_reply r = Ok r.
Proof. intros Ht Hc. unfold extract_reply. by rewrite Hc, strip_id. Qed.

(** X11.  The reply of the post-processor is final: it has no whitespace
    at either end, the self marker does not occur in it, and processing it
    again returns it unchanged. *)
Theorem extract_reply_is_final (full_response : pystr) :
  ∃ reply, extract_reply full_response = Ok reply ∧
           trimmed reply ∧
           ¬ occurs SELF_MARKER reply ∧
           extract_reply reply = Ok reply.
Proof.
  destruct (extract_reply_cases full_response) as (t & Ht & ->).
  pose proof (contains_strip _ _ Ht) as Hc.
  exists (strip t). split_and!; [done | apply strip_trimmed | |].
  - intros Hocc%contains_spec. congruence.
  - apply extract_reply_fixed; [apply strip_trimmed | done].
Qed.

(** X12.  When the decoded text is the prompt of [generate_response]
    followed by a continuation in which the self marker does not occur, the
    reply is that continuation, stripped, whatever the messages of the
    context contain (the marker included). *)
Theorem reply_follows_prompt (context_messages : list pystr) (tail_ : pystr) :
  contains SELF_MARKER tail_ = false →
  extract_reply (dialog_text context_messages ++ tail_) = Ok (strip tail_).
Proof.
  intros H. unfold dialog_text. rewrite <- app_assoc.
  by apply extract_reply_after.
Qed.

(** X13.  A training example is the prompt that [generate_response]
    builds for the same context, followed by the response and the end
    token.  For every pair of the corpus whose response does not contain
    the self marker, the post-processor applied to the example without its
    end token gives back the response exactly. *)
Theorem training_example_round_trip
    (fs : filesystem) (file_path your_name : pystr) (c : conversation) :
  c ∈ (process_chat_file fs file_path your_name).1 →
  contains SELF_MARKER (response c) = false →
  (∀ eos_token,
     example_text eos_token (context c) (response c)
     = dialog_text (context c) ++ response c ++ eos_token) ∧
  extract_reply (example_text [] (context c) (response c))
  = Ok (response c).
Proof.
  intros Hc Hno.
  assert (∀ eos_token,
            example_text eos_token (context c) (response c)
            = dialog_text (context c) ++ response c ++ eos_token) as Heq.
  { intros eos_token. unfold example_text, dialog_text.
    by rewrite <- !app_assoc. }
  split; [done|]. rewrite Heq, app_nil_r.
  unfold dialog_text. rewrite <- app_assoc.
  rewrite extract_reply_after by done.
  apply process_chat_file_elem in Hc as (d & msgs & st & _ & _ & Hrun & Hc).
  destruct (run_messages_schema _ _ _ _ _ Hrun) as (_ & _ & Hall).
  rewrite Forall_forall in Hall.
  destruct (Hall c Hc) as (_ & _ & ((_ & _ & Ht) & _) & _).
  by rewrite strip_id.
Qed.

(** ** [format_dataset] *)

Lemma item_Some {A} (l : list A) i x : l !! i = Some x → item l i = Ok x.
Proof. unfold item. by intros ->. Qed.

Lemma item_None {A} (l : list A) i :
  (length l ≤ i)%nat → item l i = Raise IndexError.
Proof. intros H. unfold item. by rewrite lookup_ge_None_2. Qed.

Lemma format_inputs_from eos_token (contexts : list (list pystr)) responses n :
  ∀ k inputs,
  (k + n ≤ length contexts)%nat → (k + n ≤ length responses)%nat →
  foldM (λ inputs i,
           context ← item contexts i;
           response ← item responses i;
           Ok (inputs ++ [example_text eos_token context response]))
        inputs (seq k n)
  = Ok (inputs ++ zip_with (example_text eos_token)
                    (take n (drop k contexts)) (take n (drop k responses))).
Proof.
  induction n as [|n IH]; intros k inputs Hc Hr; cbn [seq foldM].
  - by rewrite take_0, app_nil_r.
  - destruct (lookup_lt_is_Some_2 contexts k) as [c Hck]; [lia|].
    destruct (lookup_lt_is_Some_2 responses k) as [r Hrk]; [lia|].
    rewrite (item_Some _ _ _ Hck). cbn [mbind result_bind].
    rewrite (item_Some _ _ _ Hrk). cbn [mbind result_bind].
    rewrite IH by lia. rewrite (drop_S _ _ _ Hck), (drop_S _ _ _ Hrk). simpl.
    by rewrite <- app_assoc.
Qed.

(** X14.  [format_dataset] builds one text per row, in row order, from
    the context and the response of that row, when the response column is
    at least as long as the context column; when it is shorter, the loop
    raises [IndexError] at the first row without a response. *)
Theorem format_inputs_rows (eos_token : pystr) (ex : examples) :
  ((length (context_column ex) ≤ length (response_column ex))%nat →
   format_inputs eos_token ex
   = Ok (zip_with (example_text eos_token)
           (context_column ex) (response_column ex))) ∧
  ((length (response_column ex) < length (context_column ex))%nat →
   format_inputs eos_token ex = Raise IndexError).
Proof.
  unfold format_inputs. split; intros Hlen.
  - rewrite format_inputs_from by (simpl; lia). simpl. f_equal.
    apply zip_with_take_both'; lia.
  - replace (length (context_column ex))
      with (length (response_column ex)
            + (length (context_column ex) - length (response_column ex)))%nat
      by lia.
    rewrite seq_app, foldM_app. rewrite format_inputs_from by (simpl; lia).
    simpl.
    destruct (length (context_column ex) - length (response_column ex))%nat
      as [|n] eqn:Hn; [lia|]. cbn [seq foldM mbind result_bind].
    destruct (lookup_lt_is_Some_2 (context_column ex)
                (length (response_column ex))) as [c Hc]; [lia|].
    rewrite (item_Some _ _ _ Hc). cbn [mbind result_bind].
    by rewrite item_None.
Qed.

(** ** [MessageGenerator]: replies and failures *)

Lemma FALLBACK_final : final_reply FALLBACK.
Proof.
  split; [split; intros c [= <-]; reflexivity|].
  intros Hocc%contains_spec. vm_compute in Hocc. discriminate Hocc.
Qed.

Lemma extract_reply_final full reply :
  extract_reply full = Ok reply → final_reply reply.
Proof.
  destruct (extract_reply_cases full) as (t & Ht & ->). intros [= <-].
  split; [apply strip_trimmed|].
  intros Hocc%contains_spec. by rewrite contains_strip in Hocc.
Qed.

Lemma generate_response_final g context_messages max_length temperature w r w' :
  generate_response g context_messages max_length temperature w = (Ok r, w') →
  final_reply r.
Proof.
  unfold generate_response. destruct (model g) as [m|]; [|done].
  destruct (tokenizer g) as [t|]; [|done].
  destruct (infer t m (dialog_text context_messages) max_length temperature w)
    as [[full|e] w1]; simpl.
  - destruct (extract_reply full) as [reply|] eqn:Hr; intros [= <- _];
      [by eapply extract_reply_final | apply FALLBACK_final].
  - intros [= <- _]. apply FALLBACK_final.
Qed.

Lemma generate_loop_final g context_messages temperature indices :
  ∀ responses w replies w',
  Forall final_reply responses →
  generate_loop g context_messages temperature indices responses w
  = (Ok replies, w') →
  Forall final_reply replies.
Proof.
  induction indices as [|i rest IH]; intros responses w replies w' Hall; simpl.
  - by intros [= <- _].
  - destruct (generate_response g context_messages 100 (vary temperature i) w)
      as [[r|e] w1] eqn:Hr; [|done].
    apply IH. apply Forall_app. split; [done|]. constructor; [|constructor].
    by eapply generate_response_final.
Qed.

(** X15.  Every reply that [generate_response] returns, the fallback
    included, has no whitespace at either end and does not contain the self
    marker; so has every candidate of [generate_multiple_responses]. *)
Theorem replies_are_final
    (g : MessageGenerator) (context_messages : list pystr)
    (temperature : Temperature) (w : World) :
  (∀ max_length reply w',
     generate_response g context_messages max_length temperature w
     = (Ok reply, w') → final_reply reply) ∧
  (∀ num_responses replies w',
     generate_multiple_responses g context_messages num_responses
       temperature w = (Ok replies, w') → Forall final_reply replies).
Proof.
  split.
  - intros max_length reply w'. apply generate_response_final.
  - intros num_responses replies w'. unfold generate_multiple_responses.
    apply generate_loop_final. constructor.
Qed.

Lemma generate_response_unloaded g context_messages max_length temperature w :
  ¬ loaded g →
  generate_response g context_messages max_length temperature w
  = (Raise RuntimeError, w).
Proof.
  intros Hno. unfold generate_response.
  destruct (model g) as [m|] eqn:Hm; [|done].
  destruct (tokenizer g) as [t|] eqn:Ht; [|done].
  destruct Hno. unfold loaded. rewrite Hm, Ht. split; by eexists.
Qed.

(** X16.  On a generator whose model or tokenizer is missing,
    [generate_response] raises [RuntimeError] without calling the model (the
    world is left as it is); [generate_multiple_responses] raises it at the
    first candidate, and returns the empty list when no candidate is
    asked for. *)
Theorem unloaded_generator_raises
    (g : MessageGenerator) (context_messages : list pystr)
    (temperature : Temperature) (w : World) :
  ¬ loaded g →
  (∀ max_length,
     generate_response g context_messages max_length temperature w
     = (Raise RuntimeError, w)) ∧
  (∀ num_responses,
     generate_multiple_responses g context_messages num_responses
       temperature w
     = if bool_decide (0 < num_responses)%Z then (Raise RuntimeError, w)
       else (Ok [], w)).
Proof.
  intros Hno. split; [intros; by apply generate_response_unloaded|].
  intros num_responses. unfold generate_multiple_responses.
  case_bool_decide as Hn.
  - destruct (Z.to_nat num_responses) as [|n] eqn:Hnat; [lia|]. simpl.
    by rewrite generate_response_unloaded.
  - by replace (Z.to_nat num_responses) with 0%nat by lia.
Qed.

Lemma generate_loop_app g context_messages temperature l1 l2 :
  ∀ responses w,
  generate_loop g context_messages temperature (l1 ++ l2) responses w =
  match generate_loop g context_messages temperature l1 responses w with
  | (Ok responses', w') =>
      generate_loop g context_messages temperature l2 responses' w'
  | (Raise e, w') => (Raise e, w')
  end.
Proof.
  induction l1 as [|i l1 IH]; intros responses w; simpl; [done|].
  by destruct (generate_response g context_messages 100 (vary temperature i) w)
    as [[r|e] w1].
Qed.

(** X17.  Asking for one more candidate does not change the others: the
    candidates of a request for [n + 1] are those of a request for [n] from
    the same state, followed by one reply generated at the temperature
    varied by [n]; a request that raises for [n] raises for [n + 1]. *)
Theorem one_more_candidate
    (g : MessageGenerator) (context_messages : list pystr) (n : nat)
    (temperature : Temperature) (w : World) :
  generate_multiple_responses g context_messages (Z.of_nat (S n)) temperature w
  = match generate_multiple_responses g context_messages (Z.of_nat n)
            temperature w with
    | (Ok replies, w') =>
        match generate_response g context_messages 100 (vary temperature n)
                w' with
        | (Ok reply, w'') => (Ok (replies ++ [reply]), w'')
        | (Raise e, w'') => (Raise e, w'')
        end
    | (Raise e, w') => (Raise e, w')
    end.
Proof.
  unfold generate_multiple_responses. rewrite !Nat2Z.id.
  rewrite seq_S, generate_loop_app. simpl.
  destruct (generate_loop g context_messages temperature (seq 0 n) [] w)
    as [[replies|e] w']; [|done]. simpl.
  by destruct (generate_response g context_messages 100 (vary temperature n) w')
    as [[r|e] w''].
Qed.

(** ** [batch_mode] and [interactive_mode] *)

Lemma init_is_loaded path w g w' : init path w = (Ok g, w') → loaded g.
Proof.
  intros (t & m & Ht & Hm)%init_loaded. split; by eexists.
Qed.

Lemma generate_response_loaded g context_messages max_length temperature w :
  loaded g →
  ∃ reply w',
    generate_response g context_messages max_length temperature w
    = (Ok reply, w').
Proof.
  intros [[t Ht] [m Hm]].
  destruct (generate_response_returns g t m context_messages max_length
              temperature w Ht Hm) as (reply & -> & _). eauto.
Qed.

Lemma generate_multiple_responses_loaded g context_messages temperature w :
  loaded g →
  ∃ replies w',
    generate_multiple_responses g context_messages 3 temperature w
    = (Ok replies, w') ∧ length replies = 3%nat.
Proof.
  intros [[t Ht] [m Hm]]. unfold generate_multiple_responses.
  destruct (generate_loop_returns g t m context_messages temperature
              (seq 0 (Z.to_nat 3)) Ht Hm [] w) as (replies & w' & -> & Hlen).
  exists replies, w'. split; [done|]. by rewrite Hlen.
Qed.

(** X18.  [batch_mode] returns the error text, [Ошибка: ] followed by the
    message of the exception, exactly when the model cannot be loaded.
    Once it is loaded the handler is never reached: the result is the reply
    of [generate_response], which is stripped and is the fallback string if
    the inference fails. *)
Theorem batch_mode_outcomes (context_messages : list pystr) (w : World) :
  (∀ e w1, init DEFAULT_MODEL_PATH w = (Raise e, w1) →
           batch_mode context_messages w
           = (ERROR_PREFIX ++ exn_message e, w1)) ∧
  (∀ g w1, init DEFAULT_MODEL_PATH w = (Ok g, w1) →
           ∃ reply w2,
             generate_response g context_messages 100 default_temperature w1
             = (Ok reply, w2) ∧
             batch_mode context_messages w = (reply, w2) ∧
             final_reply reply).
Proof.
  split.
  - intros e w1 Hinit. unfold batch_mode. by rewrite Hinit.
  - intros g w1 Hinit.
    destruct (generate_response_loaded g context_messages 100
                default_temperature w1 (init_is_loaded _ _ _ _ Hinit))
      as (reply & w2 & Hr).
    exists reply, w2. split; [done|]. split.
    + unfold batch_mode. by rewrite Hinit, Hr.
    + by eapply generate_response_final.
Qed.

Lemma choice_index_bound choice i : choice_index choice = Some i → (i < 3)%nat.
Proof.
  unfold choice_index. repeat case_bool_decide; intros [= <-]; lia.
Qed.

Lemma session_transcript g :
  loaded g →
  ∀ lines at_ w,
  match at_ with
  | AskMessage context =>
      Forall (λ msg, msg ≠ [] ∧ trimmed msg) context →
      transcript None (session g at_ lines w).1
  | AskChoice responses =>
      length responses = 3%nat →
      transcript (Some responses) (session g at_ lines w).1
  end.
Proof.
  intros Hg. induction lines as [|line lines IH]; intros at_ w.
  { destruct at_; intros _; apply transcript_eof. }
  destruct at_ as [context|responses]; cbn [session].
  - intros Hctx. case_bool_decide as Hexit; [apply transcript_goodbye|].
    case_bool_decide as Hempty.
    + destruct context as [|m0 context]; [by apply (IH (AskMessage []))|].
      destruct (generate_multiple_responses_loaded g (m0 :: context)
                  default_temperature w Hg) as (responses & w' & -> & Hlen).
      pose proof (IH (AskChoice responses) w' Hlen) as Hrest.
      destruct (session g (AskChoice responses) lines w') as [evs w''].
      simpl in *. by apply transcript_offered.
    + apply (IH (AskMessage (context ++ [strip line]))).
      apply Forall_app. split; [done|]. constructor; [|constructor].
      split; [done | apply strip_trimmed].
  - intros Hlen. destruct (choice_index (strip line)) as [i|] eqn:Hi.
    + apply choice_index_bound in Hi.
      destruct (lookup_lt_is_Some_2 responses i) as [r Hr]; [lia|].
      rewrite Hr. pose proof (IH (AskMessage []) w (Forall_nil_2 _)) as Hrest.
      destruct (session g (AskMessage []) lines w) as [evs w'']. simpl in *.
      apply transcript_selected; [|done]. by eapply list_elem_of_lookup_2.
    + pose proof (IH (AskMessage []) w (Forall_nil_2 _)) as Hrest.
      destruct (session g (AskMessage []) lines w) as [evs w'']. simpl in *.
      by apply transcript_skipped.
Qed.

(** X19.  Once the model is loaded, whatever is typed, what a session of
    [interactive_mode] shows follows the protocol of [transcript]: a
    context is offered only when it is not empty, its messages are stripped
    and not empty, three candidates come with it, an answer that is
    selected is one of them (the index is always in range), and the session
    ends with the farewell or with the end of the input. *)
Theorem interactive_mode_protocol
    (lines : list pystr) (w : World) (g : MessageGenerator) (w1 : World) :
  init DEFAULT_MODEL_PATH w = (Ok g, w1) →
  transcript None (interactive_mode lines w).1.
Proof.
  intros Hinit. unfold interactive_mode. rewrite Hinit.
  apply (session_transcript g (init_is_loaded _ _ _ _ Hinit) lines
           (AskMessage []) w1).
  constructor.
Qed.

Lemma transcript_no_failure pending evs :
  transcript pending evs →
  Forall (λ ev, ∀ e, ev ≠ Failed e) evs ∧
  (last evs = Some Goodbye ∨ last evs = Some FailedEOF).
Proof.
  induction 1 as [|pending|context responses evs _ _ _ Hevs [IH1 IH2]
                  |responses response evs _ Hevs [IH1 IH2]
                  |responses evs Hevs [IH1 IH2]].
  - split; [by repeat constructor | by left].
  - split; [by repeat constructor | by right].
  - split; [by constructor|]. rewrite last_cons.
    destruct IH2 as [-> | ->]; auto.
  - split; [by constructor|]. rewrite last_cons.
    destruct IH2 as [-> | ->]; auto.
  - split; [by constructor|]. rewrite last_cons.
    destruct IH2 as [-> | ->]; auto.
Qed.

(** X20.  [interactive_mode] reports an exception in two cases only: the
    model cannot be loaded, and then this is all it shows, or the input
    ends.  With a loaded model no exception of the generator and no
    [IndexError] of the selection is ever shown, and the last thing shown
    is the farewell or the end of the input. *)
Theorem interactive_mode_failures (lines : list pystr) (w : World) :
  (∀ e w1, init DEFAULT_MODEL_PATH w = (Raise e, w1) →
           interactive_mode lines w = ([Failed e], w1)) ∧
  (∀ g w1, init DEFAULT_MODEL_PATH w = (Ok g, w1) →
           Forall (λ ev, ∀ e, ev ≠ Failed e) (interactive_mode lines w).1 ∧
           (last (interactive_mode lines w).1 = Some Goodbye ∨
            last (interactive_mode lines w).1 = Some FailedEOF)).
Proof.
  split.
  - intros e w1 Hinit. unfold interactive_mode. by rewrite Hinit.
  - intros g w1 Hinit. apply (transcript_no_failure None).
    unfold interactive_mode. rewrite Hinit.
    apply (session_transcript g (init_is_loaded _ _ _ _ Hinit) lines
             (AskMessage []) w1).
    constructor.
Qed.

End Program.

Arguments tokenizer {Tokenizer Model} _.
Arguments model {Tokenizer Model} _.
Arguments model_path {Tokenizer Model} _.
Arguments init {Tokenizer Model World} _ _ _ _.
Arguments generate_response {Tokenizer Model World Temperature} _ _ _ _ _ _.
Arguments generate_loop {Tokenizer Model World Temperature} _ _ _ _ _ _ _ _.
Arguments generate_multiple_responses
  {Tokenizer Model World Temperature} _ _ _ _ _ _ _.
Arguments loaded {Tokenizer Model} _.
Arguments batch_mode {Tokenizer Model World Temperature} _ _ _ _ _ _ _.
Arguments session {Tokenizer Model World Temperature} _ _ _ _ _ _ _ _.
Arguments interactive_mode
  {Tokenizer Model World Temperature} _ _ _ _ _ _ _ _.

(** * Concrete runs *)

Abbreviation run_basic := (run_messages isalnum_basic repr_elided digit_limit).
Abbreviation clean_basic := (clean_text isalnum_basic repr_elided digit_limit).
Abbreviation process_basic :=
  (process_chat_file isalnum_basic repr_elided digit_limit).

(** ** [clean_text] *)

Example clean_text_emoji :
  clean_basic (JStr (u "  Hello,   world! 😀 ")) = Ok (u "Hello, world!").
Proof. vm_compute. reflexivity. Qed.

Example clean_text_fragments :
  clean_basic
    (JList [JStr (u "see "); JDict {[ TEXT := JStr (u "this") ]}; JInt 12;
            JNull])
  = Ok (u "see this12None").
Proof. vm_compute. reflexivity. Qed.

(** A dict-like fragment without [text]: line 10 raises [KeyError]. *)
Lemma clean_text_fragment_without_text :
  clean_basic (JList [JStr (u "bold: "); JDict {[ TYPE := JStr (u "bold") ]}])
  = Raise KeyError.
Proof. vm_compute. reflexivity. Qed.

(** An integer with more digits than [str] converts: line 12 raises
    [ValueError]. *)
Example clean_text_huge_integer :
  clean_basic (JInt (10 ^ 4300)) = Raise ValueError ∧
  clean_basic (JInt (-12345)) = Ok (u "-12345").
Proof. split; vm_compute; reflexivity. Qed.

Lemma clean_text_returns_witness :
  let text :=
    JList [JStr (u "see "); JDict {[ TEXT := JStr (u "this") ]}; JInt 12;
           JNull] in
  text_value digit_limit text ∧
  ∃ whole, joined repr_elided digit_limit text whole ∧
           clean_basic text = Ok (clean_str isalnum_basic whole).
Proof.
  intros text.
  assert (text_value digit_limit text) as H.
  { right. eexists. split; [reflexivity|].
    constructor; [left; exact I|].
    constructor.
    { right. exists {[ TEXT := JStr (u "this") ]}, (JStr (u "this")).
      split; [reflexivity|]. split; [vm_compute; reflexivity | exact I]. }
    constructor; [left; vm_compute; reflexivity|].
    constructor; [left; exact I|]. constructor. }
  split; [exact H|].
  exact (clean_text_returns isalnum_basic repr_elided digit_limit
           text H).
Defined.

(** ** The extraction loop *)

(** The pairing scenario: interlocutor, interlocutor, self, interlocutor,
    self gives two pairs, with contexts of length 2 and 1. *)
Example flush_then_append_pairing :
  map (λ c, length (context c))
    (process_basic
       (folder [(u "a.json",
                 Ok (chat "personal_chat"
                       [entry "Bob" "Hi"; entry "Bob" "How are you";
                        entry "Andrey" "Good, thanks";
                        entry "Bob" "ok then"; entry "Andrey" "yes"]))])
       sample_path ANDREY).1
  = [2; 1]%nat.
Proof. vm_compute. reflexivity. Qed.

(** An outgoing message right after a flush gives no pair. *)
Example no_emission_without_context :
  run_basic sample_path ANDREY ∅ (Extractor [] [])
    [entry "Bob" "Hi"; entry "Andrey" "Good"; entry "Andrey" "and you"]
  = Ok (Extractor
          [pair_of sample_path ∅ [u "Hi"] (u "Good")] []).
Proof. vm_compute. reflexivity. Qed.

Lemma outgoing_entry_flushes_nonempty_window_witness :
  let pre := [entry "Bob" "Hi"; entry "Bob" "How are you"] in
  let msg := entry "Andrey" "Good, thanks" in
  survives isalnum_basic repr_elided digit_limit
      msg (JStr ANDREY) (u "Good, thanks") ∧
  run_basic sample_path ANDREY ∅ (Extractor [] []) pre
  = Ok (Extractor [] [u "Hi"; u "How are you"]) ∧
  run_basic sample_path ANDREY ∅ (Extractor [] []) (pre ++ [msg])
  = Ok (Extractor
          [pair_of sample_path ∅ [u "Hi"; u "How are you"] (u "Good, thanks")]
          []).
Proof.
  intros pre msg.
  assert (survives isalnum_basic repr_elided digit_limit msg (JStr ANDREY)
            (u "Good, thanks")) as Hs.
  { apply (survives_intro _ _ _ _ (JStr (u "Good, thanks")));
      vm_compute; reflexivity. }
  assert (run_basic sample_path ANDREY ∅ (Extractor [] []) pre
          = Ok (Extractor [] [u "Hi"; u "How are you"])) as Hpre.
  { vm_compute. reflexivity. }
  split; [exact Hs|]. split; [exact Hpre|].
  apply (outgoing_entry_flushes_nonempty_window isalnum_basic repr_elided
           digit_limit
           sample_path ANDREY ∅ pre msg _ _ Hs Hpre).
  simpl. discriminate.
Defined.

Lemma window_holds_last_three_witness :
  let msgs := [entry "Bob" "one"; entry "Bob" "two"; entry "Bob" "three";
               entry "Bob" "four"] in
  let texts := [u "one"; u "two"; u "three"; u "four"] in
  Forall2 (incoming isalnum_basic repr_elided digit_limit ANDREY) msgs texts ∧
  ∃ st',
    run_basic sample_path ANDREY ∅ (Extractor [] []) ([] ++ msgs) = Ok st' ∧
    current_context st' = [u "two"; u "three"; u "four"].
Proof.
  intros msgs texts.
  assert (Forall2 (incoming isalnum_basic repr_elided digit_limit
      ANDREY) msgs texts)
    as Hall.
  { repeat constructor.
    - apply (incoming_intro _ _ _ _ _ (JStr (u "one")));
        vm_compute; reflexivity.
    - apply (incoming_intro _ _ _ _ _ (JStr (u "two")));
        vm_compute; reflexivity.
    - apply (incoming_intro _ _ _ _ _ (JStr (u "three")));
        vm_compute; reflexivity.
    - apply (incoming_intro _ _ _ _ _ (JStr (u "four")));
        vm_compute; reflexivity. }
  split; [exact Hall|].
  destruct (window_holds_last_three isalnum_basic repr_elided digit_limit
      sample_path
              ANDREY ∅ [] (Extractor [] []) msgs texts eq_refl Hall)
    as (st' & Hrun & _ & _ & Hwin & _).
  exists st'. split; [exact Hrun|]. exact (Hwin eq_refl).
Defined.

Lemma ignored_entry_is_discarded_witness :
  let msg := entry "Bob" "http://example.org" in
  let text := u "http: example.org" in
  cleans_to isalnum_basic repr_elided digit_limit msg text ∧
  ((length text < 2)%nat ∨ startswith text HTTP = true) ∧
  run_basic sample_path ANDREY ∅ (Extractor [] [])
    ([entry "Bob" "Hi"] ++ msg :: [entry "Andrey" "Good"])
  = run_basic sample_path ANDREY ∅ (Extractor [] [])
      ([entry "Bob" "Hi"] ++ [entry "Andrey" "Good"]).
Proof.
  intros msg text.
  assert (cleans_to isalnum_basic repr_elided digit_limit msg text) as Hc.
  { apply (cleans_to_entry _ _ _ _ (JStr (u "http://example.org")));
      vm_compute; reflexivity. }
  assert ((length text < 2)%nat ∨ startswith text HTTP = true) as Hi.
  { right. vm_compute. reflexivity. }
  split; [exact Hc|]. split; [exact Hi|].
  apply (ignored_entry_is_discarded isalnum_basic repr_elided digit_limit
      sample_path
           ANDREY ∅ msg text Hc Hi).
Defined.

(** A one-character text is ignored as well. *)
Example one_character_entry :
  run_basic sample_path ANDREY ∅ (Extractor [] [])
    [entry "Bob" "k"; entry "Andrey" "Good"]
  = Ok (Extractor [] []).
Proof. vm_compute. reflexivity. Qed.

Lemma entry_without_sender_is_appended_witness :
  let m : gmap pystr json :=
    list_to_map [(TYPE, JStr MESSAGE); (TEXT, JStr (u "hi there"))] in
  ANDREY ≠ [] ∧
  m !! FROM = None ∧
  survives isalnum_basic repr_elided digit_limit
      (JDict m) (JStr []) (u "hi there") ∧
  run_basic sample_path ANDREY ∅ (Extractor [] []) ([] ++ [JDict m])
  = Ok (Extractor [] [u "hi there"]).
Proof.
  intros m.
  assert (survives isalnum_basic repr_elided digit_limit (JDict m) (JStr [])
            (u "hi there")) as Hs.
  { apply (survives_intro _ _ _ _ (JStr (u "hi there")));
      vm_compute; reflexivity. }
  assert (m !! FROM = None) as Hfrom by (vm_compute; reflexivity).
  split; [discriminate|]. split; [exact Hfrom|]. split; [exact Hs|].
  apply (entry_without_sender_is_appended isalnum_basic repr_elided digit_limit
           sample_path ANDREY ∅ [] (Extractor [] []) m (JStr [])
           (u "hi there")).
  - discriminate.
  - left. exact Hfrom.
  - exact Hs.
  - reflexivity.
Defined.

(** With the empty string as owner the defaulted sender is the owner: the
    entry without [from] is taken as outgoing, a pair is emitted with its
    text as response and nothing is appended to the window. *)
Lemma entry_without_sender_with_empty_owner :
  run_basic sample_path [] ∅ (Extractor [] [])
    ([entry "Bob" "hello"] ++ [anonymous_entry "hi there"])
  = Ok (Extractor [pair_of sample_path ∅ [u "hello"] (u "hi there")] []).
Proof. vm_compute. reflexivity. Qed.

(** ** Files *)

Abbreviation dataset_basic :=
  (create_training_dataset isalnum_basic repr_elided digit_limit).

Example sample_folder_corpus :
  (λ r, (length (all_conversations (counters r)),
         total_files (counters r), processed_files (counters r),
         printed (counters r)))
    <$> dataset_basic sample_folder
  = Some (2, 4, 1, [PrintError (u "2025_08_12/b.json") JSONDecodeError;
                    PrintError (u "2025_08_12/d.json") AttributeError])%nat.
Proof. vm_compute. reflexivity. Qed.

(** A personal chat whose second entry is not an object: the pair found
    before it is lost with the rest. *)
Example entry_not_an_object :
  process_basic
    (folder [(u "a.json",
              Ok (chat "personal_chat"
                    [entry "Bob" "Hi"; entry "Andrey" "Good"; JStr (u "?")]))])
    sample_path ANDREY
  = ([], [PrintError sample_path AttributeError]).
Proof. vm_compute. reflexivity. Qed.

(** A personal chat whose [messages] is an empty object is iterated as
    nothing: no pair and no warning. *)
Example messages_not_a_list :
  process_basic (folder [(u "h.json", Ok hollow_chat)])
    (u "2025_08_12/h.json") ANDREY
  = ([], []).
Proof. vm_compute. reflexivity. Qed.

(** A personal chat that does not follow the export format, its texts
    being a number and a boolean, is not skipped and not reported: the
    texts are converted and a pair is extracted. *)
Lemma schema_invalid_chat_is_processed :
  ¬ follows_schema odd_chat ∧
  process_basic (folder [(u "e.json", Ok odd_chat)])
    (u "2025_08_12/e.json") ANDREY
  = ([ {| context := [u "12345"]; response := u "True";
          source_file := u "e.json"; chat_name := JStr (u "Bob") |} ], []).
Proof.
  split; [|vm_compute; reflexivity].
  intros (d & Hd & _ & l & Hl & Hall). injection Hd as <-.
  assert (chat_header "personal_chat" odd_messages !! MESSAGES
          = Some (JList odd_messages)) as Hm by (vm_compute; reflexivity).
  rewrite Hm in Hl. injection Hl as <-.
  inversion Hall as [|msg msgs (m & Hmsg & _ & _ & Htext) _]; subst.
  injection Hmsg as <-.
  destruct (Htext (JInt 12345)) as [[s Hs]|(l & Hl & _)];
    [vm_compute; reflexivity | discriminate Hs | discriminate Hl].
Qed.

Lemma other_chats_and_bad_files_yield_nothing_witness :
  let group := chat_header "private_group"
                 [entry "Bob" "Hi"; entry "Andrey" "Good"] in
  let stray := chat "personal_chat"
                 [entry "Bob" "Hi"; entry "Andrey" "Good"; JStr (u "?")] in
  let odd := folder [(u "e.json", Ok odd_chat)] in
  load_json sample_folder (u "2025_08_12/c.json") = Ok (JDict group) ∧
  ¬ personal_chat group ∧
  process_basic sample_folder (u "2025_08_12/c.json") ANDREY = ([], []) ∧
  load_json sample_folder (u "2025_08_12/b.json") = Raise JSONDecodeError ∧
  process_basic sample_folder (u "2025_08_12/b.json") ANDREY
  = ([], [PrintError (u "2025_08_12/b.json") JSONDecodeError]) ∧
  untraversable repr_elided digit_limit stray ∧
  (∃ e, process_basic sample_folder (u "2025_08_12/d.json") ANDREY
        = ([], [PrintError (u "2025_08_12/d.json") e])) ∧
  ¬ untraversable repr_elided digit_limit odd_chat ∧
  (∃ convs, process_basic odd (u "2025_08_12/e.json") ANDREY = (convs, [])) ∧
  all_conversations
    (aggregate_loop isalnum_basic repr_elided digit_limit
       sample_folder ([u "b.json"] ++ u "c.json" :: [u "a.json"]))
  = all_conversations
      (aggregate_loop isalnum_basic repr_elided digit_limit
         sample_folder ([u "b.json"] ++ [u "a.json"])).
Proof.
  intros group stray odd.
  assert (load_json sample_folder (u "2025_08_12/c.json") = Ok (JDict group))
    as Hc by (vm_compute; reflexivity).
  assert (¬ personal_chat group) as Hg.
  { intros H. vm_compute in H. discriminate H. }
  assert (load_json sample_folder (u "2025_08_12/b.json")
          = Raise JSONDecodeError) as Hb by (vm_compute; reflexivity).
  destruct (other_chats_and_bad_files_yield_nothing isalnum_basic repr_elided
              digit_limit sample_folder (u "2025_08_12/c.json")
              ANDREY)
    as (Hother & _ & _ & _ & _ & Hskip).
  destruct (other_chats_and_bad_files_yield_nothing isalnum_basic repr_elided
              digit_limit sample_folder (u "2025_08_12/b.json")
              ANDREY)
    as (_ & Hfail & _).
  assert (untraversable repr_elided digit_limit stray) as Hd.
  { eapply untraversable_entry
      with (l := [entry "Bob" "Hi"; entry "Andrey" "Good"; JStr (u "?")]);
      [vm_compute; reflexivity | vm_compute; reflexivity|].
    do 2 apply Exists_cons_tl. apply Exists_cons_hd. left. discriminate. }
  destruct (other_chats_and_bad_files_yield_nothing isalnum_basic repr_elided
              digit_limit sample_folder (u "2025_08_12/d.json")
              ANDREY)
    as (_ & _ & Hbad & _).
  assert (¬ untraversable repr_elided digit_limit odd_chat) as Hodd.
  { intros H.
    apply (extract_raises_iff isalnum_basic repr_elided
             digit_limit (u "2025_08_12/e.json") ANDREY)
      in H as [e He].
    vm_compute in He. discriminate He. }
  destruct (other_chats_and_bad_files_yield_nothing isalnum_basic repr_elided
              digit_limit odd (u "2025_08_12/e.json") ANDREY)
    as (_ & _ & _ & Hgood & _).
  split_and!; [exact Hc | exact Hg | exact (Hother group Hc Hg) | exact Hb
              | exact (Hfail _ Hb) | exact Hd | exact (Hbad _ eq_refl Hd)
              | exact Hodd | exact (Hgood _ eq_refl Hodd) |].
  apply Hskip. vm_compute. reflexivity.
Defined.

(** ** Statistics *)

Lemma statistics_are_a_fold_of_the_corpus_witness :
  NoDup (glob_json sample_folder CHATS_FOLDER) ∧
  Forall (λ name, SLASH ∉ name) (glob_json sample_folder CHATS_FOLDER) ∧
  ∃ r st,
    dataset_basic sample_folder = Some r ∧
    dataset_statistics r = Some st ∧
    training_dataset r = Some (all_conversations (counters r)) ∧
    total_conversations st = 2%nat ∧
    context_lengths st = [2; 1]%nat ∧
    response_lengths st = [12; 3]%nat ∧
    chat_sources st !! u "a.json" = Some 2%nat ∧
    chat_sources st !! u "b.json" = None.
Proof.
  assert (NoDup (glob_json sample_folder CHATS_FOLDER)) as Hnd.
  { apply (bool_decide_unpack _). vm_compute. exact I. }
  assert (Forall (λ name, SLASH ∉ name) (glob_json sample_folder CHATS_FOLDER))
    as Hsl.
  { apply (bool_decide_unpack _). vm_compute. exact I. }
  split; [exact Hnd|]. split; [exact Hsl|].
  destruct (dataset_basic sample_folder) as [r|] eqn:Hrun;
    [|vm_compute in Hrun; discriminate Hrun].
  pose proof (statistics_are_a_fold_of_the_corpus isalnum_basic repr_elided
                digit_limit sample_folder r Hnd Hsl Hrun)
    as (Hcorpus & Hiff & Hstats).
  cbv zeta in Hcorpus, Hiff, Hstats.
  destruct (proj2 Hiff) as [st Hst].
  { rewrite Hcorpus. split; [vm_compute; discriminate|].
    split; reflexivity. }
  destruct (Hstats st Hst) as (Hds & Ht & Hc & _ & Hr & Hsrc & _ & _).
  exists r, st. split; [reflexivity|]. split; [exact Hst|].
  split; [exact Hds|].
  rewrite Ht, Hc, Hr, !Hsrc, Hcorpus. vm_compute. repeat split.
Defined.

(** When the dataset cannot be written the run ends there: no statistics
    are written. *)
Example dataset_not_written :
  (λ r, (length (all_conversations (counters r)), training_dataset r,
         dataset_statistics r, failed_dump r))
    <$> dataset_basic
          (unencodable_folder
             [(u "a.json",
               Ok (chat "personal_chat"
                     [entry "Bob" "Hi"; entry "Andrey" "Good"]))])
  = Some (1%nat, None, None, Some UnicodeEncodeError).
Proof. vm_compute. reflexivity. Qed.

(** ** Replies *)

Example extract_reply_after_marker :
  extract_reply (u "A: hi
Вы: hello") = Ok (u "hello").
Proof. vm_compute. reflexivity. Qed.

Example extract_reply_two_markers :
  extract_reply (u "Вы: first Вы:Вы: second  ") = Ok (u "second").
Proof. vm_compute. reflexivity. Qed.

Example extract_reply_fallback :
  extract_reply (u "  no marker here ") = Ok (u "no marker here").
Proof. vm_compute. reflexivity. Qed.

(** The prompt of two interlocutor messages followed by a reply: the reply
    is recovered. *)
Example extract_reply_of_prompt :
  extract_reply (dialog_text [u "Hi"; u "How are you"] ++ u "Good, thanks")
  = Ok (u "Good, thanks").
Proof. vm_compute. reflexivity. Qed.

Lemma extract_reply_after_last_marker_witness :
  let full := u "Собеседник: Вы: тут?
Вы:     hello world
 " in
  occurs SELF_MARKER full ∧
  ∃ a b reply, last_occurrence SELF_MARKER full a b ∧
               extract_reply full = Ok reply ∧
               stripping b reply ∧
               reply = u "hello world".
Proof.
  intros full.
  assert (occurs SELF_MARKER full) as Hocc.
  { exists (u "Собеседник: "), (u "тут?
Вы:     hello world
 "). vm_compute. reflexivity. }
  split; [exact Hocc|].
  destruct (extract_reply_after_last_marker full) as (_ & Hlast & _ & _).
  destruct (Hlast Hocc) as (a & b & reply & Hab & Hreply & Hstrip).
  exists a, b, reply. split; [exact Hab|]. split; [exact Hreply|].
  split; [exact Hstrip|].
  assert (extract_reply full = Ok (u "hello world")) as Hrun
    by (vm_compute; reflexivity).
  rewrite Hreply in Hrun. injection Hrun as Hrun. exact Hrun.
Defined.

(** Whitespace on both sides of what follows the marker is removed, and
    whitespace inside it is kept. *)
Example extract_reply_strips_both_ends :
  extract_reply (u "Вы:    hi  there
") = Ok (u "hi  there").
Proof. vm_compute. reflexivity. Qed.

(** ** Generation *)

Lemma generation_failure_is_recovered_witness :
  let g := {| model_path := u "my_dialogpt";
              tokenizer := Some tt; model := Some tt |} in
  init echo_load echo_load (u "my_dialogpt") 0%nat = (Ok g, 0%nat) ∧
  generate_response echo_infer g [u "hi"] 100 7%nat 0%nat
  = (Ok FALLBACK, 1%nat) ∧
  ∃ replies w',
    generate_multiple_responses (λ t i, (t + i)%nat) echo_infer g [u "hi"] 3
      7%nat 0%nat = (Ok replies, w') ∧
    length replies = 3%nat.
Proof.
  intros g.
  assert (init echo_load echo_load (u "my_dialogpt") 0%nat = (Ok g, 0%nat))
    as Hinit by reflexivity.
  split; [exact Hinit|].
  destruct (generation_failure_is_recovered unit unit nat nat echo_load
              echo_load (λ t i, (t + i)%nat) echo_infer _ _ _ _ Hinit)
    as (t & m & _ & _ & Hfail & _ & Hmany).
  split.
  - apply (Hfail [u "hi"] 100%Z 7%nat 0%nat InferenceError 1%nat).
    destruct t, m. reflexivity.
  - destruct (Hmany [u "hi"] 3%Z 7%nat 0%nat)
      as (replies & w' & Hrun & Hlen & _).
    exists replies, w'. split; [exact Hrun | exact Hlen].
Defined.

(** * Concrete runs of the further properties *)

(** ** [clean_text] *)

Lemma clean_text_result_shape_witness :
  let y := u "Hello, world!" in
  clean_basic (JStr (u "  Hello,   world! 😀 ")) = Ok y ∧
  (∀ l1 l2, y ≠ l1 ++ SPACE :: SPACE :: l2) ∧
  head y ≠ Some SPACE ∧ last y ≠ Some SPACE.
Proof.
  intros y.
  assert (clean_basic (JStr (u "  Hello,   world! 😀 ")) = Ok y) as H
    by (vm_compute; reflexivity).
  split; [exact H|].
  exact (proj2 (clean_text_result_shape isalnum_basic repr_elided digit_limit
      _ y H)).
Defined.

Example clean_text_only_symbols :
  clean_basic (JStr (u " 😀 ♥ #@ ")) = Ok [].
Proof. vm_compute. reflexivity. Qed.

(** ** The extraction loop *)

Lemma process_chat_file_schema_witness :
  let d := chat_header "personal_chat" sample_messages in
  let c := pair_of sample_path d [u "Hi"; u "How are you"]
             (u "Good, thanks") in
  c ∈ (process_basic sample_folder sample_path ANDREY).1 ∧
  ∃ d', load_json sample_folder sample_path = Ok (JDict d') ∧
        personal_chat d' ∧ pair_schema isalnum_basic sample_path d' c.
Proof.
  intros d c.
  assert (c ∈ (process_basic sample_folder sample_path ANDREY).1) as Hc.
  { vm_compute. left. }
  split; [exact Hc|].
  exact (process_chat_file_schema isalnum_basic repr_elided digit_limit
      sample_folder
           sample_path ANDREY c Hc).
Defined.

Lemma skipped_entry_changes_nothing_witness :
  skipped_entry service_entry ∧
  run_basic sample_path ANDREY ∅ (Extractor [] [])
    ([entry "Bob" "Hi"] ++ service_entry :: [entry "Andrey" "Good"])
  = run_basic sample_path ANDREY ∅ (Extractor [] [])
      ([entry "Bob" "Hi"] ++ [entry "Andrey" "Good"]).
Proof.
  assert (skipped_entry service_entry) as Hs.
  { eexists. split; [reflexivity|]. left. intros H. vm_compute in H.
    discriminate H. }
  split; [exact Hs|].
  apply (skipped_entry_changes_nothing isalnum_basic repr_elided digit_limit
      sample_path
           ANDREY ∅ service_entry Hs).
Defined.

Lemma pairs_take_two_entries_witness :
  ∃ st,
    run_basic sample_path ANDREY ∅ (Extractor [] []) sample_messages = Ok st ∧
    length (conversations st) = 2%nat ∧
    (2 * length (conversations st) +
       (if current_context st is [] then 0 else 1)
     ≤ length sample_messages)%nat.
Proof.
  destruct (run_basic sample_path ANDREY ∅ (Extractor [] []) sample_messages)
    as [st|] eqn:Hrun; [|vm_compute in Hrun; discriminate Hrun].
  exists st. split; [reflexivity|]. split.
  - vm_compute in Hrun. injection Hrun as <-. reflexivity.
  - exact (pairs_take_two_entries isalnum_basic repr_elided digit_limit
      sample_path
             ANDREY ∅ sample_messages st Hrun).
Defined.

Lemma emitted_pairs_are_kept_witness :
  let pre := [entry "Bob" "Hi"; entry "Andrey" "Good"] in
  let post := [entry "Bob" "ok then"; entry "Andrey" "yes"] in
  let first := pair_of sample_path ∅ [u "Hi"] (u "Good") in
  let second := pair_of sample_path ∅ [u "ok then"] (u "yes") in
  run_basic sample_path ANDREY ∅ (Extractor [] []) pre
  = Ok (Extractor [first] []) ∧
  run_basic sample_path ANDREY ∅ (Extractor [] []) (pre ++ post)
  = Ok (Extractor [first; second] []) ∧
  [first] `prefix_of` [first; second].
Proof.
  intros pre post first second.
  assert (run_basic sample_path ANDREY ∅ (Extractor [] []) pre
          = Ok (Extractor [first] [])) as Hpre by (vm_compute; reflexivity).
  assert (run_basic sample_path ANDREY ∅ (Extractor [] []) (pre ++ post)
          = Ok (Extractor [first; second] [])) as Hall
    by (vm_compute; reflexivity).
  split; [exact Hpre|]. split; [exact Hall|].
  exact (emitted_pairs_are_kept isalnum_basic repr_elided digit_limit
      sample_path ANDREY ∅
           pre post _ _ Hpre Hall).
Defined.

(** ** Statistics *)

Lemma chat_sources_add_up_witness :
  ∃ r st,
    dataset_basic sample_folder = Some r ∧
    dataset_statistics r = Some st ∧
    sum_counts (chat_sources st) = total_conversations st ∧
    total_conversations st = 2%nat.
Proof.
  destruct (dataset_basic sample_folder) as [r|] eqn:Hrun;
    [|vm_compute in Hrun; discriminate Hrun].
  destruct (dataset_statistics r) as [st|] eqn:Hst;
    [|vm_compute in Hrun; injection Hrun as <-; discriminate Hst].
  exists r, st. split; [reflexivity|]. split; [exact Hst|].
  destruct (chat_sources_add_up isalnum_basic repr_elided digit_limit
      sample_folder r st
              Hrun Hst) as [Hsum Htotal].
  split; [exact Hsum|]. rewrite Htotal.
  vm_compute in Hrun. injection Hrun as <-. reflexivity.
Defined.

Lemma processed_files_counts_sources_witness :
  NoDup (glob_json sample_folder CHATS_FOLDER) ∧
  Forall (λ name, SLASH ∉ name) (glob_json sample_folder CHATS_FOLDER) ∧
  ∃ r,
    dataset_basic sample_folder = Some r ∧
    processed_files (counters r) = 1%nat ∧
    (processed_files (counters r) ≤ total_files (counters r))%nat.
Proof.
  assert (NoDup (glob_json sample_folder CHATS_FOLDER)) as Hnd.
  { apply (bool_decide_unpack _). vm_compute. exact I. }
  assert (Forall (λ name, SLASH ∉ name) (glob_json sample_folder CHATS_FOLDER))
    as Hsl.
  { apply (bool_decide_unpack _). vm_compute. exact I. }
  split; [exact Hnd|]. split; [exact Hsl|].
  destruct (dataset_basic sample_folder) as [r|] eqn:Hrun;
    [|vm_compute in Hrun; discriminate Hrun].
  exists r. split; [reflexivity|].
  destruct (processed_files_counts_sources isalnum_basic repr_elided digit_limit
              sample_folder r Hnd Hsl Hrun) as (Hp & Hle & _).
  split; [|exact Hle]. rewrite Hp. vm_compute. reflexivity.
Defined.

Lemma file_order_does_not_matter_witness :
  let names := [u "a.json"; u "d.json"] in
  let names' := [u "d.json"; u "a.json"] in
  names ≡ₚ names' ∧ NoDup names ∧ Forall (λ name, SLASH ∉ name) names ∧
  chat_sources
    (make_stats (aggregate_loop isalnum_basic repr_elided digit_limit
        sample_folder names))
  = chat_sources
      (make_stats
         (aggregate_loop isalnum_basic repr_elided digit_limit
             sample_folder names')).
Proof.
  intros names names'.
  assert (names ≡ₚ names') as Hperm by apply perm_swap.
  assert (NoDup names) as Hnd.
  { apply (bool_decide_unpack _). vm_compute. exact I. }
  assert (Forall (λ name, SLASH ∉ name) names) as Hsl.
  { apply (bool_decide_unpack _). vm_compute. exact I. }
  split; [exact Hperm|]. split; [exact Hnd|]. split; [exact Hsl|].
  exact (proj2 (proj2 (proj2 (proj2
    (file_order_does_not_matter isalnum_basic repr_elided digit_limit
        sample_folder
       names names' Hperm Hnd Hsl))))).
Defined.

(** ** Replies and training examples *)

Example extract_reply_twice :
  extract_reply (u "  Вы: one Вы: two  ") = Ok (u "two") ∧
  extract_reply (u "two") = Ok (u "two").
Proof. split; vm_compute; reflexivity. Qed.

(** A context that itself contains the marker does not disturb the
    reply. *)
Lemma reply_follows_prompt_witness :
  contains SELF_MARKER (u " hello ") = false ∧
  extract_reply (dialog_text [u "Вы: тут?"] ++ u " hello ")
  = Ok (strip (u " hello ")) ∧
  strip (u " hello ") = u "hello".
Proof.
  assert (contains SELF_MARKER (u " hello ") = false) as H by reflexivity.
  split; [exact H|]. split; [|reflexivity].
  exact (reply_follows_prompt [u "Вы: тут?"] (u " hello ") H).
Defined.

(** A response in which the marker occurs is cut by the post-processor. *)
Example marker_in_response :
  extract_reply (example_text [] [u "Hi"] (u "а Вы: как")) = Ok (u "как").
Proof. vm_compute. reflexivity. Qed.

Lemma training_example_round_trip_witness :
  let d := chat_header "personal_chat" sample_messages in
  let c := pair_of sample_path d [u "Hi"; u "How are you"]
             (u "Good, thanks") in
  c ∈ (process_basic sample_folder sample_path ANDREY).1 ∧
  contains SELF_MARKER (response c) = false ∧
  extract_reply (example_text [] (context c) (response c))
  = Ok (u "Good, thanks").
Proof.
  intros d c.
  assert (c ∈ (process_basic sample_folder sample_path ANDREY).1) as Hc.
  { vm_compute. left. }
  assert (contains SELF_MARKER (response c) = false) as Hno by reflexivity.
  split; [exact Hc|]. split; [exact Hno|].
  exact (proj2 (training_example_round_trip isalnum_basic repr_elided
                  digit_limit
                  sample_folder sample_path ANDREY c Hc Hno)).
Defined.

Lemma format_inputs_rows_witness :
  let full := Examples [[u "Hi"]; [u "one"; u "two"]] [u "Good"; u "three"] in
  let short := Examples [[u "Hi"]; [u "one"; u "two"]] [u "Good"] in
  format_inputs (u "<eos>") full
  = Ok [example_text (u "<eos>") [u "Hi"] (u "Good");
        example_text (u "<eos>") [u "one"; u "two"] (u "three")] ∧
  format_inputs (u "<eos>") short = Raise IndexError.
Proof.
  intros full short. split.
  - apply (proj1 (format_inputs_rows (u "<eos>") full)). simpl. lia.
  - apply (proj2 (format_inputs_rows (u "<eos>") short)). simpl. lia.
Defined.

(** ** Generation *)

Abbreviation echo_generator :=
  ({| model_path := DEFAULT_MODEL_PATH;
      tokenizer := Some tt; model := Some tt |} : MessageGenerator unit unit).
Abbreviation unloaded_generator :=
  ({| model_path := DEFAULT_MODEL_PATH;
      tokenizer := Some tt; model := None |} : MessageGenerator unit unit).

Lemma replies_are_final_witness :
  generate_response echo_infer echo_generator [u "hi"] 100 7%nat 1%nat
  = (Ok (u "ok"), 2%nat) ∧
  final_reply (u "ok") ∧
  ∃ replies w',
    generate_multiple_responses (λ t i, (t + i)%nat) echo_infer echo_generator
      [u "hi"] 3 7%nat 0%nat = (Ok replies, w') ∧
    Forall final_reply replies.
Proof.
  destruct (replies_are_final unit unit nat nat (λ t i, (t + i)%nat) echo_infer
              echo_generator [u "hi"] 7%nat 1%nat) as [Hone _].
  destruct (replies_are_final unit unit nat nat (λ t i, (t + i)%nat) echo_infer
              echo_generator [u "hi"] 7%nat 0%nat) as [_ Hmany].
  assert (generate_response echo_infer echo_generator [u "hi"] 100 7%nat 1%nat
          = (Ok (u "ok"), 2%nat)) as Hrun by (vm_compute; reflexivity).
  split; [exact Hrun|]. split; [exact (Hone _ _ _ Hrun)|].
  destruct (generate_multiple_responses (λ t i, (t + i)%nat) echo_infer
              echo_generator [u "hi"] 3 7%nat 0%nat) as [[replies|e] w']
    eqn:Hmulti; [|vm_compute in Hmulti; discriminate Hmulti].
  exists replies, w'. split; [reflexivity|]. exact (Hmany _ _ _ Hmulti).
Defined.

Lemma unloaded_generator_raises_witness :
  ¬ loaded unloaded_generator ∧
  generate_response echo_infer unloaded_generator [u "hi"] 100 7%nat 1%nat
  = (Raise RuntimeError, 1%nat) ∧
  generate_multiple_responses (λ t i, (t + i)%nat) echo_infer
    unloaded_generator [u "hi"] 3 7%nat 1%nat
  = (Raise RuntimeError, 1%nat) ∧
  generate_multiple_responses (λ t i, (t + i)%nat) echo_infer
    unloaded_generator [u "hi"] 0 7%nat 1%nat
  = (Ok [], 1%nat).
Proof.
  assert (¬ loaded unloaded_generator) as Hno.
  { intros [_ [m Hm]]. discriminate Hm. }
  destruct (unloaded_generator_raises unit unit nat nat (λ t i, (t + i)%nat)
              echo_infer unloaded_generator [u "hi"] 7%nat 1%nat Hno)
    as [Hone Hmany].
  split; [exact Hno|]. split; [exact (Hone 100%Z)|].
  split; [exact (Hmany 3%Z) | exact (Hmany 0%Z)].
Defined.

Example one_more_candidate_run :
  generate_multiple_responses (λ t i, (t + i)%nat) echo_infer echo_generator
    [u "hi"] 2 7%nat 0%nat = (Ok [FALLBACK; u "ok"], 2%nat) ∧
  generate_multiple_responses (λ t i, (t + i)%nat) echo_infer echo_generator
    [u "hi"] 3 7%nat 0%nat = (Ok [FALLBACK; u "ok"; FALLBACK], 3%nat).
Proof. split; vm_compute; reflexivity. Qed.

Lemma batch_mode_outcomes_witness :
  init failing_load echo_load DEFAULT_MODEL_PATH 0%nat
  = (Raise OSError, 0%nat) ∧
  batch_mode failing_load echo_load echo_infer 7%nat exn_name [u "hi"] 0%nat
  = (ERROR_PREFIX ++ u "no such directory", 0%nat) ∧
  init echo_load echo_load DEFAULT_MODEL_PATH 0%nat
  = (Ok echo_generator, 0%nat) ∧
  batch_mode echo_load echo_load echo_infer 7%nat exn_name [u "hi"] 0%nat
  = (FALLBACK, 1%nat).
Proof.
  assert (init failing_load echo_load DEFAULT_MODEL_PATH 0%nat
          = (Raise OSError, 0%nat)) as Hfail by reflexivity.
  assert (init echo_load echo_load DEFAULT_MODEL_PATH 0%nat
          = (Ok echo_generator, 0%nat)) as Hok by reflexivity.
  split; [exact Hfail|]. split.
  { exact (proj1 (batch_mode_outcomes unit unit nat nat failing_load echo_load
                    echo_infer 7%nat exn_name [u "hi"] 0%nat) _ _ Hfail). }
  split; [exact Hok|].
  destruct (proj2 (batch_mode_outcomes unit unit nat nat echo_load echo_load
                     echo_infer 7%nat exn_name [u "hi"] 0%nat) _ _ Hok)
    as (reply & w2 & Hgen & Hbatch & _).
  rewrite Hbatch. vm_compute in Hgen. injection Hgen as <- <-. reflexivity.
Defined.

(** The sample session: the context [Hi], [How are you] is offered with
    three candidates, the second is selected, a blank line starts over, and
    the exit word, in capitals, ends the session before the last line is
    read. *)
Example sample_session :
  (interactive_mode echo_load echo_load (λ t i, (t + i)%nat) echo_infer 7%nat
     lower_ascii sample_lines 0%nat).1
  = [Offered [u "Hi"; u "How are you"] [FALLBACK; u "ok"; FALLBACK];
     Selected (u "ok"); Goodbye].
Proof. vm_compute. reflexivity. Qed.

Lemma interactive_mode_protocol_witness :
  init echo_load echo_load DEFAULT_MODEL_PATH 0%nat
  = (Ok echo_generator, 0%nat) ∧
  transcript None
    (interactive_mode echo_load echo_load (λ t i, (t + i)%nat) echo_infer 7%nat
       lower_ascii sample_lines 0%nat).1.
Proof.
  assert (init echo_load echo_load DEFAULT_MODEL_PATH 0%nat
          = (Ok echo_generator, 0%nat)) as Hok by reflexivity.
  split; [exact Hok|].
  exact (interactive_mode_protocol unit unit nat nat echo_load echo_load
           (λ t i, (t + i)%nat) echo_infer 7%nat lower_ascii sample_lines
           0%nat _ _ Hok).
Defined.

Lemma interactive_mode_failures_witness :
  init failing_load echo_load DEFAULT_MODEL_PATH 0%nat
  = (Raise OSError, 0%nat) ∧
  interactive_mode failing_load echo_load (λ t i, (t + i)%nat) echo_infer
    7%nat lower_ascii sample_lines 0%nat = ([Failed OSError], 0%nat) ∧
  init echo_load echo_load DEFAULT_MODEL_PATH 0%nat
  = (Ok echo_generator, 0%nat) ∧
  last (interactive_mode echo_load echo_load (λ t i, (t + i)%nat) echo_infer
          7%nat lower_ascii [u "Hi"; u ""; u "7"] 0%nat).1
  = Some FailedEOF.
Proof.
  assert (init failing_load echo_load DEFAULT_MODEL_PATH 0%nat
          = (Raise OSError, 0%nat)) as Hfail by reflexivity.
  assert (init echo_load echo_load DEFAULT_MODEL_PATH 0%nat
          = (Ok echo_generator, 0%nat)) as Hok by reflexivity.
  split; [exact Hfail|]. split.
  { exact (proj1 (interactive_mode_failures unit unit nat nat failing_load
                    echo_load (λ t i, (t + i)%nat) echo_infer 7%nat
                    lower_ascii sample_lines 0%nat) _ _ Hfail). }
  split; [exact Hok|].
  destruct (proj2 (interactive_mode_failures unit unit nat nat echo_load
                     echo_load (λ t i, (t + i)%nat) echo_infer 7%nat
                     lower_ascii [u "Hi"; u ""; u "7"] 0%nat) _ _ Hok)
    as [_ [Hbye|Heof]]; [|exact Heof].
  vm_compute in Hbye. discriminate Hbye.
Defined.
